(** * gis.py: sliver simplification of polygon layers

    A shallow embedding of [src/gis.py]: the simplification engine
    [simplify_shps], the quadrant partitioning of [simplify_shps_mp] and the
    layer deletion helper [del_shp]; then the module's own [explode],
    [neighboor_xys], [raster_to_contour_polys] and the arithmetic of
    [resample_raster].

    The geometry, raster and sorting primitives of shapely, rasterstats and
    numpy are an interface ([Engine]); the orchestration on top of them
    (filtering, dissolve and explode of frames, neighbour selection, the
    convergence loop) is written out as the source has it. *)

From Stdlib Require Import String Ascii.
From Stdlib Require Import List Bool Arith ZArith QArith Qabs Lia Lqa.
From Stdlib Require Import Permutation Sorted.
Import ListNotations.

Local Open Scope nat_scope.
Local Open Scope list_scope.

(** ** Exceptions and results *)

(** The exceptions the modelled code paths can raise. *)
Inductive exn : Type :=
| ValueError      (* to_crs on a naive frame, idxmin/max of nothing *)
| KeyError        (* a column that was never created *)
| TypeError       (* shared_paths on something that is no LineString *)
| Warning.        (* del_shp on a path that is no .shp *)

Inductive res (A : Type) : Type :=
| Ok (a : A)
| Raise (e : exn).
Arguments Ok {A} a.
Arguments Raise {A} e.

Definition bind {A B} (m : res A) (k : A -> res B) : res B :=
  match m with
  | Ok a => k a
  | Raise e => Raise e
  end.

Notation "x <- m ;; k" := (bind m (fun x => k))
  (at level 61, m at next level, right associativity).

Fixpoint mapM {A B} (f : A -> res B) (l : list A) : res (list B) :=
  match l with
  | [] => Ok []
  | a :: l' => b <- f a ;; bs <- mapM f l' ;; Ok (b :: bs)
  end.

(** ** Attribute values *)

Inductive value : Type :=
| VNull
| VNum (z : Z)
| VStr (s : string).

Definition value_eqb (a b : value) : bool :=
  match a, b with
  | VNull, VNull => true
  | VNum x, VNum y => Z.eqb x y
  | VStr x, VStr y => String.eqb x y
  | _, _ => false
  end.

Fixpoint values_eqb (l1 l2 : list value) : bool :=
  match l1, l2 with
  | [], [] => true
  | a :: l1', b :: l2' => value_eqb a b && values_eqb l1' l2'
  | _, _ => false
  end.

(** [fillna("NAN")] on one cell. *)
Definition fillna (v : value) : value :=
  match v with
  | VNull => VStr "NAN"
  | _ => v
  end.

(** The cell-wise effect of [gdf_out.loc[col == "NAN", colname] = np.nan]. *)
Definition restore_nan (v : value) : value :=
  match v with
  | VStr s => if String.eqb s "NAN" then VNull else v
  | _ => v
  end.

(** ** Numbers *)

Definition Qltb (x y : Q) : bool := negb (Qle_bool y x).

Definition Qmaxb (x y : Q) : Q := if Qle_bool x y then y else x.
Definition Qminb (x y : Q) : Q := if Qle_bool x y then x else y.

(** A bounding box, as a row of [GeoSeries.bounds]. *)
Record bbox : Type := mkBBox {
  minx : Q;
  miny : Q;
  maxx : Q;
  maxy : Q
}.

(** ** The engine interface *)

(** Single-part polygons, boundary rings, coordinate reference systems and
    rasters belong to the external engine, with the primitives the source
    calls on them. *)
Class Engine : Type := {
  poly : Type;
  ring : Type;
  crs : Type;
  raster : Type;
  (** [GeoSeries.area] of one part, in the frame's own coordinates *)
  poly_area : poly -> Q;
  (** area of one part after [to_crs(epsg=31467)] from the given CRS *)
  area_31467 : crs -> poly -> Q;
  poly_bounds : poly -> bbox;
  poly_touches : poly -> poly -> bool;
  poly_intersects : poly -> poly -> bool;
  (** the single-part polygons of the union of the given parts *)
  union_parts : list poly -> list poly;
  (** the rings of a polygon's boundary: exterior first, then the holes *)
  poly_rings : poly -> list ring;
  ring_touches : ring -> poly -> bool;
  ring_intersects : ring -> poly -> bool;
  (** [shared_paths(a, b).length] of two LineStrings *)
  shared_length : ring -> ring -> Q;
  (** [zonal_stats(..., stats=["mean"])] of a geometry given by its parts,
      reprojected from the given CRS to the raster's *)
  zonal_mean : raster -> crs -> list poly -> Q;
  (** numpy's [argsort]: the positions of the values in ascending order *)
  argsort : list Q -> list nat
}.

Section Simplify.
Context {E : Engine}.

(** ** Geometries *)

Inductive geometry : Type :=
| Polygon (p : poly)
| MultiPolygon (ps : list poly).

Definition get_parts (g : geometry) : list poly :=
  match g with
  | Polygon p => [p]
  | MultiPolygon ps => ps
  end.

Definition is_Polygon (g : geometry) : bool :=
  match g with
  | Polygon _ => true
  | MultiPolygon _ => false
  end.

Definition Qsum (l : list Q) : Q := fold_right Qplus 0%Q l.

Definition area (g : geometry) : Q := Qsum (map poly_area (get_parts g)).

Definition area_epsg31467 (c : crs) (g : geometry) : Q :=
  Qsum (map (area_31467 c) (get_parts g)).

Definition touches (a b : geometry) : bool :=
  existsb (fun p => existsb (poly_touches p) (get_parts b)) (get_parts a).

Definition intersects (a b : geometry) : bool :=
  existsb (fun p => existsb (poly_intersects p) (get_parts b)) (get_parts a).

(** [unary_union]: a Polygon when the union is connected, a MultiPolygon
    otherwise. *)
Definition unary_union (gs : list geometry) : geometry :=
  match union_parts (flat_map get_parts gs) with
  | [p] => Polygon p
  | ps => MultiPolygon ps
  end.

Inductive linework : Type :=
| LineString (r : ring)
| MultiLineString (rs : list ring).

(** [geom.boundary]: a LineString for a polygon without holes, a
    MultiLineString otherwise. *)
Definition boundary (g : geometry) : linework :=
  match g with
  | Polygon p =>
      match poly_rings p with
      | [r] => LineString r
      | rs => MultiLineString rs
      end
  | MultiPolygon ps => MultiLineString (flat_map poly_rings ps)
  end.

Definition line_intersects (r : ring) (g : geometry) : bool :=
  existsb (ring_intersects r) (get_parts g).

Definition line_touches (r : ring) (g : geometry) : bool :=
  existsb (ring_touches r) (get_parts g).

(** [shapely.ops.shared_paths] refuses anything but two LineStrings. *)
Definition shared_paths (a b : linework) : res Q :=
  match a, b with
  | LineString x, LineString y => Ok (shared_length x y)
  | _, _ => Raise TypeError
  end.

(** ** Frames *)

(** A row of the working frame: its index label, its geometry, the values of
    the [cat_col] columns and of the [keep_cols] columns (in the order the
    columns are configured) and the transient [changed] flag. *)
Record row : Type := mkRow {
  idx : nat;
  geom : geometry;
  cat : list value;
  keep : list value;
  changed : bool
}.

Record frame : Type := mkFrame {
  frame_crs : option crs;
  rows : list row
}.

Definition set_idx (i : nat) (r : row) : row :=
  mkRow i (geom r) (cat r) (keep r) (changed r).
Definition set_geom (g : geometry) (r : row) : row :=
  mkRow (idx r) g (cat r) (keep r) (changed r).
Definition set_cat (c : list value) (r : row) : row :=
  mkRow (idx r) (geom r) c (keep r) (changed r).
Definition set_changed (b : bool) (r : row) : row :=
  mkRow (idx r) (geom r) (cat r) (keep r) b.

(** [ignore_index=True] / [reset_index(drop=True)]: labels 0, 1, 2, ... *)
Fixpoint reindex_from (n : nat) (l : list row) : list row :=
  match l with
  | [] => []
  | r :: l' => set_idx n r :: reindex_from (S n) l'
  end.

Definition reset_index (l : list row) : list row := reindex_from 0 l.

(** [GeoDataFrame.explode(ignore_index=True, index_parts=False)]: one row per
    part, attributes repeated. *)
Definition explode_row (r : row) : list row :=
  match geom r with
  | Polygon _ => [r]
  | MultiPolygon ps => map (fun p => set_geom (Polygon p) r) ps
  end.

Definition explode (l : list row) : list row :=
  reset_index (flat_map explode_row l).

(** The parameters of [simplify_shps] besides the frame.  [keep_cols] tells
    whether keep columns were given ([keep_cols is not None]). *)
Record config : Type := mkConfig {
  area_lim : Q;
  keep_cols : bool;
  comp_raster : option raster
}.

Variable cfg : config.

(** The values of [dis_cols] in a row. *)
Definition dis_key (r : row) : list value :=
  if keep_cols cfg then cat r ++ keep r else cat r.

(** Grouping as [groupby(sort=False)] does: groups in the order their key
    first appears, rows in frame order inside a group. *)
Fixpoint insert_group (r : row) (gs : list (list row)) : list (list row) :=
  match gs with
  | [] => [[r]]
  | g :: gs' =>
      match g with
      | [] => insert_group r gs'
      | h :: _ =>
          if values_eqb (dis_key h) (dis_key r)
          then (g ++ [r]) :: gs'
          else g :: insert_group r gs'
      end
  end.

Definition groups (l : list row) : list (list row) :=
  fold_left (fun gs r => insert_group r gs) l [].

(** One output row per group: the union of the geometries, the other columns
    from the group's first row ([aggfunc="first"]). *)
Definition dissolve_group (g : list row) : list row :=
  match g with
  | [] => []
  | h :: _ => [set_geom (unary_union (map geom g)) h]
  end.

(** [dissolve(by=dis_cols, sort=False, as_index=False)]. *)
Definition dissolve (l : list row) : list row :=
  reset_index (flat_map dissolve_group (groups l)).

(** ** Neighbour resolution (the body of the [for] loop) *)

(** [gdf_out[gdf_out.touches(geom) | gdf_out.intersects(geom)]] *)
Definition touching (gdf_out : list row) (g : geometry) : list row :=
  filter (fun t => touches (geom t) g || intersects (geom t) g) gdf_out.

(** [(touch[cat_col] != row[cat_col]).sum(axis=1) > 0]: some category column
    differs. *)
Fixpoint cat_differs (a b : list value) : bool :=
  match a, b with
  | x :: a', y :: b' => negb (value_eqb x y) || cat_differs a' b'
  | _, _ => false
  end.

(** The candidate set after the two attribute filters. *)
Definition valid_neighbors (gdf_out : list row) (r : row) : list row :=
  let touch := touching gdf_out (geom r) in
  let touch := filter (fun t => cat_differs (cat t) (cat r)) touch in
  if keep_cols cfg
  then filter (fun t => values_eqb (keep t) (keep r)) touch
  else touch.

(** Lines 242-246: a candidate set with a changed row is dissolved and
    exploded again; an empty one makes the loop [continue] ([None]). *)
Definition refresh (touch : list row) : option (list row) :=
  if existsb changed touch then Some (explode (dissolve touch))
  else match touch with
       | [] => None
       | _ => Some touch
       end.

(** [Series.idxmin] / [Series.idxmax]: the label of the first occurrence of
    the extreme value; nothing to choose from raises. *)
Fixpoint first_min (best : nat * Q) (l : list (nat * Q)) : nat :=
  match l with
  | [] => fst best
  | x :: l' =>
      if Qltb (snd x) (snd best) then first_min x l' else first_min best l'
  end.

Fixpoint first_max (best : nat * Q) (l : list (nat * Q)) : nat :=
  match l with
  | [] => fst best
  | x :: l' =>
      if Qltb (snd best) (snd x) then first_max x l' else first_max best l'
  end.

Definition idxmin (l : list (nat * Q)) : res nat :=
  match l with
  | [] => Raise ValueError
  | x :: l' => Ok (first_min x l')
  end.

Definition idxmax (l : list (nat * Q)) : res nat :=
  match l with
  | [] => Raise KeyError
  | x :: l' => Ok (first_max x l')
  end.

(** [touch.loc[label]]: the row carrying the label. *)
Definition loc (touch : list row) (label : nat) : option row :=
  find (fun t => Nat.eqb (idx t) label) touch.

(** [touch.drop(label)] *)
Definition drop (touch : list row) (label : nat) : list row :=
  filter (fun t => negb (Nat.eqb (idx t) label)) touch.

(** [x in series]: pandas looks [x] up among the index labels of the series,
    not among its values. *)
Definition in_series (x : Q) (s : list (nat * Q)) : bool :=
  existsb (fun e => Qeq_bool (inject_Z (Z.of_nat (fst e))) x) s.

(** Lines 253-269.  The result is the chosen label, if the raster decided,
    and the candidate set the border policy has to work on otherwise. *)
Definition raster_policy (rst : raster) (c : crs) (r : row) (touch : list row)
  : res (option nat * list row) :=
  let row_mean := zonal_mean rst c (get_parts (geom r)) in
  let raster_diff t :=
    Qabs (zonal_mean rst c (get_parts (geom t)) - row_mean) in
  let diffs := map (fun t => (idx t, raster_diff t)) touch in
  repl_id <- idxmin diffs ;;
  match loc touch repl_id with
  | None => Raise KeyError
  | Some best =>
      let d := raster_diff best in
      if in_series d (map (fun t => (idx t, raster_diff t)) (drop touch repl_id))
      then Ok (None, filter (fun t => Qeq_bool (raster_diff t) d) touch)
      else Ok (Some repl_id, touch)
  end.

(** Lines 277-280: for a neighbour boundary of several rings, the loop keeps
    the last ring that meets the sliver; with none, the boundary stays as it
    is. *)
Definition pick_ring (g : geometry) (nb_bound : linework) : linework :=
  match nb_bound with
  | LineString _ => nb_bound
  | MultiLineString rs =>
      fold_left
        (fun nb r =>
           if line_intersects r g || line_touches r g
           then LineString r else nb)
        rs nb_bound
  end.

(** Python's [max] of a list. *)
Definition Qmax_list (l : list Q) : res Q :=
  match l with
  | [] => Raise ValueError
  | x :: l' => Ok (fold_left (fun m y => if Qltb m y then y else m) l' x)
  end.

(** Lines 283-288: the value stored as "shared border length". *)
Definition border_length (g : geometry) (nb : geometry) : res Q :=
  let geom_bound := boundary g in
  let nb_bound := pick_ring g (boundary nb) in
  match geom_bound with
  | MultiLineString gs =>
      lengths <- mapM (fun gi => shared_paths (LineString gi) nb_bound) gs ;;
      Qmax_list lengths
  | LineString _ => shared_paths geom_bound nb_bound
  end.

(** Lines 272-290. *)
Definition border_policy (r : row) (touch : list row) : res nat :=
  scores <- mapM (fun t => l <- border_length (geom r) (geom t) ;;
                           Ok (idx t, l)) touch ;;
  idxmax scores.

(** Lines 249-290: the label of the neighbour to take the category from,
    with the candidate set it refers to. *)
Definition select (c : crs) (r : row) (touch : list row)
  : res (nat * list row) :=
  let repl_id :=
    match touch with
    | [t] => Some (idx t)
    | _ => None
    end in
  st <- match comp_raster cfg, repl_id with
        | Some rst, None => raster_policy rst c r touch
        | _, _ => Ok (repl_id, touch)
        end ;;
  match fst st with
  | Some i => Ok (i, snd st)
  | None => i <- border_policy r (snd st) ;; Ok (i, snd st)
  end.

(** [gdf_out.loc[i, cat_col] = v; gdf_out.loc[i, "changed"] = True] *)
Definition replace_cat (gdf_out : list row) (i : nat) (v : list value)
  : list row :=
  map (fun t => if Nat.eqb (idx t) i
                then set_changed true (set_cat v t) else t) gdf_out.

(** One iteration of the [for] loop over the undersized rows. *)
Definition resolve (c : crs) (gdf_out : list row) (r : row)
  : res (list row) :=
  match refresh (valid_neighbors gdf_out r) with
  | None => Ok gdf_out
  | Some touch =>
      sel <- select c r touch ;;
      match loc (snd sel) (fst sel) with
      | None => Raise KeyError
      | Some nb => Ok (replace_cat gdf_out (idx r) (cat nb))
      end
  end.

(** The whole [for] loop: the rows of [mask_shps_small] are the snapshot
    taken before the pass, [gdf_out] is updated as the loop goes. *)
Fixpoint scan (c : crs) (gdf_out : list row) (mask : list row)
  : res (list row) :=
  match mask with
  | [] => Ok gdf_out
  | r :: mask' => g <- resolve c gdf_out r ;; scan c g mask'
  end.

(** ** The convergence loop *)

(** [frame.loc[labels]] for labels given as positions of the frame. *)
Definition take_rows (l : list row) (pos : list nat) : list row :=
  flat_map (fun i => match nth_error l i with
                     | Some r => [r]
                     | None => []
                     end) pos.

(** Lines 219 and 307-308:
    [mask.loc[mask.area.sort_values().index]]. *)
Definition sort_by_area (mask : list row) : list row :=
  take_rows mask (argsort (map (fun r => area (geom r)) mask)).

(** Lines 218 and 306: [gdf_out[gdf_out.to_crs(epsg=31467).area < area_lim]];
    [to_crs] raises on a frame without CRS. *)
Definition small_mask (c : option crs) (gdf_out : list row)
  : res (list row) :=
  match c with
  | None => Raise ValueError
  | Some c =>
      Ok (filter (fun r => Qltb (area_epsg31467 c (geom r)) (area_lim cfg))
                 gdf_out)
  end.

Definition undersized (c : option crs) (gdf_out : list row)
  : res (list row) :=
  mask <- small_mask c gdf_out ;; Ok (sort_by_area mask).

(** The variables the [while] loop works on. *)
Record loop_state : Type := mkState {
  gdf_out : list row;
  mask_shps_small : list row;
  len_before : nat;
  len_after : nat
}.

(** The [while] condition, lines 225-227. *)
Definition loop_cond (st : loop_state) : bool :=
  (0 <? length (mask_shps_small st)) &&
  negb (len_before st =? len_after st).

(** The body of the [while] loop, lines 229-308. *)
Definition pass (c : crs) (st : loop_state) : res loop_state :=
  scanned <- scan c (gdf_out st) (mask_shps_small st) ;;
  let len_before := length scanned in
  let gdf_dis := dissolve scanned in
  let gdf_out := explode gdf_dis in
  let len_after := length gdf_out in
  let gdf_out := map (set_changed false) gdf_out in
  mask <- undersized (Some c) gdf_out ;;
  Ok (mkState gdf_out mask len_before len_after).

(** The [while] loop.  The source has no counter: [fuel] bounds the number of
    passes of the model only, and [None] says that it did not suffice. *)
Fixpoint simplify_loop (fuel : nat) (c : crs) (st : loop_state)
  : option (res (list row)) :=
  if loop_cond st then
    match fuel with
    | O => None
    | S fuel' =>
        match pass c st with
        | Raise e => Some (Raise e)
        | Ok st' => simplify_loop fuel' c st'
        end
    end
  else Some (Ok (gdf_out st)).

(** Lines 193-195: [reset_index], [explode], [fillna("NAN")].  The frame has
    no [changed] column yet; its field is clear. *)
Definition prepare (l : list row) : list row :=
  map (fun r => mkRow (idx r) (geom r) (map fillna (cat r))
                      (map fillna (keep r)) false)
      (explode (reset_index l)).

(** Lines 217-222: the state the loop is entered with. *)
Definition init_state (gdf_in : frame) : res loop_state :=
  let gdf_out := prepare (rows gdf_in) in
  mask <- undersized (frame_crs gdf_in) gdf_out ;;
  Ok (mkState (map (set_changed false) gdf_out) mask 3 2).

(** Lines 311-314: the sentinel back to null; the [changed] column goes (its
    field is cleared, the output has no use for it).  The [astype] that
    follows touches no value of the model. *)
Definition finish (l : list row) : list row :=
  map (fun r => mkRow (idx r) (geom r) (map restore_nan (cat r))
                      (map restore_nan (keep r)) false) l.

Definition simplify_shps (fuel : nat) (gdf_in : frame)
  : option (res frame) :=
  match init_state gdf_in, frame_crs gdf_in with
  | Raise e, _ => Some (Raise e)
  | Ok _, None => Some (Raise ValueError)
  | Ok st, Some c =>
      match simplify_loop fuel c st with
      | None => None
      | Some (Raise e) => Some (Raise e)
      | Some (Ok out) => Some (Ok (mkFrame (frame_crs gdf_in) (finish out)))
      end
  end.

(** ** The partitioned variant, [simplify_shps_mp] *)

(** The bounds of a geometry: those of the part for a Polygon, the hull of
    the parts' bounds otherwise. *)
Definition hull (a b : bbox) : bbox :=
  mkBBox (Qminb (minx a) (minx b)) (Qminb (miny a) (miny b))
         (Qmaxb (maxx a) (maxx b)) (Qmaxb (maxy a) (maxy b)).

Definition bounds (g : geometry) : bbox :=
  match get_parts g with
  | [] => mkBBox 0 0 0 0
  | p :: ps => fold_left (fun b q => hull b (poly_bounds q)) ps (poly_bounds p)
  end.

(** [gdf_in.bounds.max()] and [gdf_in.bounds.min()], column by column. *)
Definition column_max (f : bbox -> Q) (l : list row) : Q :=
  match l with
  | [] => 0%Q
  | r :: l' =>
      fold_left (fun m t => Qmaxb m (f (bounds (geom t)))) l'
                (f (bounds (geom r)))
  end.

Definition column_min (f : bbox -> Q) (l : list row) : Q :=
  match l with
  | [] => 0%Q
  | r :: l' =>
      fold_left (fun m t => Qminb m (f (bounds (geom t)))) l'
                (f (bounds (geom r)))
  end.

Definition mean_x (l : list row) : Q :=
  ((column_max maxx l + column_min minx l) / 2)%Q.
Definition mean_y (l : list row) : Q :=
  ((column_max maxy l + column_min miny l) / 2)%Q.

Inductive quarter : Type := Quarter1 | Quarter2 | Quarter3 | Quarter4.

Definition quarters : list quarter :=
  [Quarter1; Quarter2; Quarter3; Quarter4].

(** The masks of lines 370, 375, 380 and 385. *)
Definition in_quarter (mx my : Q) (q : quarter) (b : bbox) : bool :=
  match q with
  | Quarter1 => Qle_bool my (miny b) && Qle_bool (maxx b) mx
  | Quarter2 => Qle_bool my (miny b) && Qltb mx (minx b)
  | Quarter3 => Qltb (maxy b) my && Qle_bool (maxx b) mx
  | Quarter4 => Qltb (maxy b) my && Qltb mx (minx b)
  end.

(** The two comparisons of the border masks, lines 371-388: close to the
    horizontal midline, close to the vertical midline. *)
Definition near_midline_y (my d : Q) (q : quarter) (b : bbox) : bool :=
  match q with
  | Quarter1 | Quarter2 => Qltb (miny b) (my + d)
  | Quarter3 | Quarter4 => Qltb (my - d) (maxy b)
  end.

Definition near_midline_x (mx d : Q) (q : quarter) (b : bbox) : bool :=
  match q with
  | Quarter1 | Quarter3 => Qltb (mx - d) (maxx b)
  | Quarter2 | Quarter4 => Qltb (minx b) (mx + d)
  end.

Definition in_border (mx my d : Q) (q : quarter) (b : bbox) : bool :=
  near_midline_y my d q b && near_midline_x mx d q b.

Definition labels (l : list row) : list nat := map idx l.

Definition isin (i : nat) (ls : list nat) : bool :=
  existsb (Nat.eqb i) ls.

(** [parts[k]] as appended, before the small border shapes are dropped. *)
Definition part_raw (gdf_in : list row) (q : quarter) : list row :=
  filter (fun r => in_quarter (mean_x gdf_in) (mean_y gdf_in) q
                              (bounds (geom r))) gdf_in.

Definition part_border (dist_lim : Q) (gdf_in : list row) (q : quarter)
  : list row :=
  filter (fun r => in_border (mean_x gdf_in) (mean_y gdf_in) dist_lim q
                             (bounds (geom r))) (part_raw gdf_in q).

(** Lines 391-393: [part.drop(part_excl_shps.index)]. *)
Definition part (dist_lim : Q) (gdf_in : list row) (q : quarter)
  : list row :=
  let part_excl_shps :=
    filter (fun r => Qltb (area (geom r)) (area_lim cfg))
           (part_border dist_lim gdf_in q) in
  filter (fun r => negb (isin (idx r) (labels part_excl_shps)))
         (part_raw gdf_in q).

(** Lines 396-399. *)
Definition indexes_in_parts (dist_lim : Q) (gdf_in : list row) : list nat :=
  flat_map (fun q => labels (part dist_lim gdf_in q)) quarters.

Definition excluded_shps (dist_lim : Q) (gdf_in : list row) : list row :=
  filter (fun r => negb (isin (idx r) (indexes_in_parts dist_lim gdf_in)))
         gdf_in.

(** The four workers, one after the other: the first part that does not
    come back ends the run.  The shapefiles the parts travel in are not
    modelled: what a worker reads is the part, what is read back is what its
    [simplify_shps] returned. *)
Fixpoint simplify_parts (fuel : nat) (c : option crs)
  (parts : list (list row)) : option (res (list (list row))) :=
  match parts with
  | [] => Some (Ok [])
  | p :: parts' =>
      match simplify_shps fuel (mkFrame c p) with
      | None => None
      | Some (Raise e) => Some (Raise e)
      | Some (Ok out) =>
          match simplify_parts fuel c parts' with
          | None => None
          | Some (Raise e) => Some (Raise e)
          | Some (Ok outs) => Some (Ok (rows out :: outs))
          end
      end
  end.

(** The frame handed to the final pass, line 437-440: the simplified parts
    followed by the excluded shapes as they came in. *)
Definition recombine (parts_simplified : list (list row))
  (excluded : list row) : list row :=
  reset_index (concat parts_simplified ++ excluded).

Definition simplify_shps_mp (fuel : nat) (dist_lim : Q) (gdf_in : frame)
  : option (res frame) :=
  let parts := map (part dist_lim (rows gdf_in)) quarters in
  let excluded := excluded_shps dist_lim (rows gdf_in) in
  match simplify_parts fuel (frame_crs gdf_in) parts with
  | None => None
  | Some (Raise e) => Some (Raise e)
  | Some (Ok parts_simplified) =>
      simplify_shps fuel
        (mkFrame (frame_crs gdf_in) (recombine parts_simplified excluded))
  end.

End Simplify.

Arguments Polygon {E} p.
Arguments MultiPolygon {E} ps.

(** ** What the engine is expected to honour *)
Section Laws.
Context {E : Engine}.

(** [argsort] gives every position once, in ascending order of the
    values. *)
Definition sort_law : Prop :=
  (forall l : list Q, Permutation (argsort l) (seq 0 (length l))) /\
  (forall l : list Q,
     StronglySorted Qle (map (fun i => nth i l 0%Q) (argsort l))).

(** A union has no more parts than went into it. *)
Definition union_law : Prop :=
  forall l : list poly, length (union_parts l) <= length l.


(** The test of lines 218 and 306 on one row. *)
Definition below_limit (cfg : config) (c : crs) (r : row) : Prop :=
  (area_epsg31467 c (geom r) < area_lim cfg)%Q.

(** A group of one row. *)
Definition single (r : row) : list row := [r].

(** Bounds with their corners in order. *)
Definition well_formed (b : bbox) : Prop :=
  (minx b <= maxx b)%Q /\ (miny b <= maxy b)%Q.

(** A row that holds a Polygon. *)
Definition single_part (r : row) : Prop := is_Polygon (geom r) = true.

(** The state the loop holds whenever its condition is evaluated: the mask
    is the undersized set of the frame. *)
Definition at_loop_head (cfg : config) (c : crs) (st : loop_state) : Prop :=
  undersized cfg (Some c) (gdf_out st) = Ok (mask_shps_small st).






(** [passes n st st']: [n] turns of the [while] loop lead from [st] to
    [st'], the condition holding before each of them. *)
Inductive passes (cfg : config) (c : crs)
  : nat -> loop_state -> loop_state -> Prop :=
| passes_O st : passes cfg c 0 st st
| passes_S n st st1 st2 :
    loop_cond st = true ->
    pass cfg c st = Ok st1 ->
    passes cfg c n st1 st2 ->
    passes cfg c (S n) st st2.

End Laws.

(** ** A stable sort for the engines below

    Insertion sort on position/value pairs: equal values stay in the order
    they come in, as numpy's sort does on short arrays. *)
Module StableSort.

Fixpoint insert_by_value (x : nat * Q) (l : list (nat * Q))
  : list (nat * Q) :=
  match l with
  | [] => [x]
  | y :: l' =>
      if Qltb (snd x) (snd y) then x :: y :: l'
      else y :: insert_by_value x l'
  end.

Definition sort_pairs (l : list (nat * Q)) : list (nat * Q) :=
  fold_left (fun acc x => insert_by_value x acc) l [].

Definition argsort (l : list Q) : list nat :=
  map fst (sort_pairs (combine (seq 0 (length l)) l)).

(** The order the pairs are sorted in. *)
Definition by_value (a b : nat * Q) : Prop := (snd a <= snd b)%Q.

End StableSort.

(** ** A one-dimensional engine

    Parts are closed intervals [lo, hi] of the integer line: the area is the
    length, two intervals intersect when they share a point, and the union
    of intervals that share a point is one interval.  Boundaries are points,
    so every shared length is 0. *)
Module Interval.

Definition iv : Type := (Z * Z)%type.

Definition iv_area (a : iv) : Q := inject_Z (snd a - fst a).

Definition iv_intersects (a b : iv) : bool :=
  (fst a <=? snd b)%Z && (fst b <=? snd a)%Z.

Definition iv_touches (a b : iv) : bool :=
  (snd a =? fst b)%Z || (snd b =? fst a)%Z.

(** Insert an interval into a list of pairwise separated intervals in
    ascending order, merging it with those it meets. *)
Fixpoint insert_iv (a : iv) (l : list iv) : list iv :=
  match l with
  | [] => [a]
  | b :: l' =>
      if (snd a <? fst b)%Z then a :: b :: l'
      else if (snd b <? fst a)%Z then b :: insert_iv a l'
      else insert_iv (Z.min (fst a) (fst b), Z.max (snd a) (snd b)) l'
  end.

Definition iv_union (l : list iv) : list iv := fold_right insert_iv [] l.

#[export] Instance engine : Engine := {|
  poly := iv;
  ring := iv;
  crs := unit;
  raster := unit;
  poly_area := iv_area;
  area_31467 := fun _ => iv_area;
  poly_bounds := fun a => mkBBox (inject_Z (fst a)) 0 (inject_Z (snd a)) 0;
  poly_touches := iv_touches;
  poly_intersects := iv_intersects;
  union_parts := iv_union;
  poly_rings := fun a => [a];
  ring_touches := iv_touches;
  ring_intersects := iv_intersects;
  shared_length := fun _ _ => 0%Q;
  zonal_mean := fun _ _ _ => 0%Q;
  argsort := StableSort.argsort
|}.

(** A feature on the line: the interval and one category value. *)
Definition feature (lo hi : Z) (c : Z) : row :=
  mkRow 0 (Polygon ((lo, hi) : poly)) [VNum c] [] false.

Definition layer (l : list row) : frame := mkFrame (Some tt) l.

Definition plain (lim : Q) : config := mkConfig lim false None.

(** A row of slivers of growing length in front of a block.  The slivers
    meet in the corners 0, 1, 3, 6, ...: sliver [i] of [m] runs from
    [corner i] to [corner (i+1)], so its length is [i + 1]; its label is
    [i] and its category [m - i].  The block runs from [corner m] to
    [right], with label [m] and category 0.  (Read on the plane: rectangles
    of height 1 side by side.) *)
Fixpoint corner (n : nat) : Z :=
  match n with
  | O => 0%Z
  | S k => (corner k + Z.of_nat (S k))%Z
  end.

Definition sliver (m i : nat) : row :=
  mkRow i (Polygon ((corner i, corner (S i)) : poly))
        [VNum (Z.of_nat (m - i))] [] false.

Definition block (m : nat) (right : Z) : row :=
  mkRow m (Polygon ((corner m, right) : poly)) [VNum 0] [] false.

Definition slivers (m : nat) : list row := map (sliver m) (seq 0 m).

Definition chain (m : nat) (right : Z) : list row :=
  slivers m ++ [block m right].

(** The configuration a chain is run with: [area_lim = lim], no keep
    columns, no raster. *)
Definition limit (lim : Z) : config := plain (inject_Z lim).

(** [area_lim = 2], for the short examples. *)
Definition cfg2 : config := plain 2.

(** Sliver [i] once the scan has rewritten it. *)
Definition taken (m i : nat) : row :=
  mkRow i (Polygon ((corner i, corner (S i)) : poly))
        [VNum (Z.of_nat (m - i - 1))] [] true.

(** The frame after the scan has handled the slivers before [j]. *)
Definition scanned_to (m : nat) (right : Z) (j : nat) : list row :=
  map (fun i => if i <? j then taken m i else sliver m i) (seq 0 m)
  ++ [block m right].

(** The two filters of the candidate set of sliver [j], on one row. *)
Definition candidate_of (m j : nat) (t : row) : bool :=
  (touches (geom t) (geom (sliver m j)) ||
   intersects (geom t) (geom (sliver m j))) &&
  cat_differs (cat t) (cat (sliver m j)).

(** The last sliver and the block, dissolved into one row. *)
Definition joined (m : nat) (right : Z) : row :=
  mkRow m (Polygon ((corner m, right) : poly)) [VNum 0] [] true.

(** The state of the loop on a chain. *)
Definition chain_state (m : nat) (right : Z) (lb la : nat) : loop_state :=
  mkState (chain m right) (slivers m) lb la.


(** A two-part sliver on both sides of a block. *)
Definition two_part_layer : frame :=
  layer [ mkRow 0 (MultiPolygon ([(0, 1); (5, 6)]%Z : list poly))
                [VNum 1] [] false;
          feature 1 5 2 ].

(** A sliver whose only neighbour of another category was rewritten in the
    running pass, and a sliver alone on the line. *)
Definition flagged_frame : list row :=
  [ mkRow 0 (Polygon ((0, 1)%Z : poly)) [VNum 1] [] true;
    mkRow 1 (Polygon ((1, 2)%Z : poly)) [VNum 2] [] false ].

Definition flagged_sliver : row :=
  mkRow 1 (Polygon ((1, 2)%Z : poly)) [VNum 2] [] false.


End Interval.

(** ** Table-driven engines

    Shapes and rings are named by numbers and the engine answers from
    tables: the geometry of a scene is written down, not computed.  Unions
    keep the shapes apart. *)
Module Fixture.

Record tables : Type := mkTables {
  t_area : nat -> Q;
  t_area_31467 : nat -> Q;
  t_bounds : nat -> bbox;
  t_meets : nat -> nat -> bool;          (* two shapes touch or intersect *)
  t_rings : nat -> list nat;
  t_ring_meets : nat -> nat -> bool;     (* ring, shape *)
  t_shared : nat -> nat -> Q;            (* ring, ring *)
  t_mean : nat -> Q
}.

Definition engine (T : tables) : Engine := {|
  poly := nat;
  ring := nat;
  crs := unit;
  raster := unit;
  poly_area := t_area T;
  area_31467 := fun _ => t_area_31467 T;
  poly_bounds := t_bounds T;
  poly_touches := t_meets T;
  poly_intersects := t_meets T;
  union_parts := fun l => l;
  poly_rings := t_rings T;
  ring_touches := t_ring_meets T;
  ring_intersects := t_ring_meets T;
  shared_length := t_shared T;
  zonal_mean := fun _ _ ps => match ps with
                              | [p] => t_mean T p
                              | _ => 0%Q
                              end;
  argsort := StableSort.argsort
|}.

Definition no_bounds : nat -> bbox := fun _ => mkBBox 0%Q 0%Q 0%Q 0%Q.

(** The row of shape [i]: label [i], one category column. *)
Definition shape (T : tables) (i : nat) (c : string) : @row (engine T) :=
  @mkRow (engine T) i (@Polygon (engine T) i) [VStr c] [] false.

(** *** A sliver between two neighbours, over a raster

    Shape 0 is the sliver, shapes 1 and 2 touch it; each has one ring, named
    like the shape.  The sliver shares a border of length 1 with shape 1 and
    of length 2 with shape 2.  The raster mean is 10 under the sliver and
    [m1], [m2] under the neighbours. *)
Definition tie_tables (m1 m2 : Q) : tables := {|
  t_area := fun p => match p with 0 => 1%Q | _ => 100%Q end;
  t_area_31467 := fun p => match p with 0 => 1%Q | _ => 100%Q end;
  t_bounds := no_bounds;
  t_meets := fun _ _ => true;
  t_rings := fun p => [p];
  t_ring_meets := fun _ _ => true;
  t_shared := fun a b => match a, b with
                         | 0, 1 => 1%Q
                         | 0, 2 => 2%Q
                         | _, _ => 0%Q
                         end;
  t_mean := fun p => match p with
                     | 0 => 10%Q
                     | 1 => m1
                     | _ => m2
                     end
|}.

Definition tie_frame (m1 m2 : Q) : list (@row (engine (tie_tables m1 m2))) :=
  [ shape (tie_tables m1 m2) 0 "S";
    shape (tie_tables m1 m2) 1 "A";
    shape (tie_tables m1 m2) 2 "B" ].

Definition tie_sliver (m1 m2 : Q) : @row (engine (tie_tables m1 m2)) :=
  shape (tie_tables m1 m2) 0 "S".

Definition tie_config (m1 m2 : Q) : @config (engine (tie_tables m1 m2)) :=
  @mkConfig (engine (tie_tables m1 m2)) 5%Q false (Some tt).

(** *** A sliver in a hole

    Shape 1 is a polygon with two holes that touch in one point: its rings
    are 11 (exterior), 12 and 13 (the holes).  The sliver, shape 0 with ring
    10, lies in the first hole along 5 units of ring 12 and reaches the
    point the holes share, so it meets ring 13 without sharing any length
    with it.  Shape 2, with ring 20, lies in the same hole: it shares 2
    units with the sliver and 3 units with ring 12. *)
Definition is_pair (a b x y : nat) : bool := (a =? x) && (b =? y).

Definition hole_ring_meets (y p : nat) : bool :=
  is_pair 12 0 y p || is_pair 13 0 y p || is_pair 20 0 y p ||
  is_pair 10 2 y p || is_pair 12 2 y p.

Definition hole_shared (a b : nat) : Q :=
  if is_pair 10 12 a b then 5%Q
  else if is_pair 10 20 a b then 2%Q
  else if is_pair 20 10 a b then 2%Q
  else if is_pair 20 12 a b then 3%Q
  else 0%Q.

Definition hole_tables : tables := {|
  t_area := fun p => match p with 0 => 1%Q | _ => 100%Q end;
  t_area_31467 := fun p => match p with 0 => 1%Q | _ => 100%Q end;
  t_bounds := no_bounds;
  t_meets := fun _ _ => true;
  t_rings := fun p => match p with
                      | 0 => [10]
                      | 1 => [11; 12; 13]
                      | _ => [20]
                      end;
  t_ring_meets := hole_ring_meets;
  t_shared := hole_shared;
  t_mean := fun _ => 0%Q
|}.

Definition hole_engine : Engine := engine hole_tables.

Definition hole_sliver : @row hole_engine := shape hole_tables 0 "S".
Definition hole_ring_owner : @row hole_engine := shape hole_tables 1 "A".
Definition hole_mate : @row hole_engine := shape hole_tables 2 "B".

Definition hole_frame : list (@row hole_engine) :=
  [hole_sliver; hole_ring_owner; hole_mate].

Definition hole_config : @config hole_engine :=
  @mkConfig hole_engine 5%Q false None.

(** *** Three squares

    Square 0 has the corners (0,0) and (4,4), square 1 the corners (6,6)
    and (10,10), square 2 the corners (3,3) and (7,7): the midlines are
    [x = 5] and [y = 5] and square 2 lies across both.  Each has area 16. *)
Definition square_tables : tables := {|
  t_area := fun _ => 16%Q;
  t_area_31467 := fun _ => 16%Q;
  t_bounds := fun p => match p with
                       | 0 => mkBBox 0%Q 0%Q 4%Q 4%Q
                       | 1 => mkBBox 6%Q 6%Q 10%Q 10%Q
                       | _ => mkBBox 3%Q 3%Q 7%Q 7%Q
                       end;
  t_meets := fun _ _ => false;
  t_rings := fun p => [p];
  t_ring_meets := fun _ _ => false;
  t_shared := fun _ _ => 0%Q;
  t_mean := fun _ => 0%Q
|}.

Definition square_engine : Engine := engine square_tables.

Definition square (i : nat) : @row square_engine :=
  shape square_tables i "X".

Definition square_frame : @frame square_engine :=
  @mkFrame square_engine (Some tt) [square 0; square 1; square 2].

Definition square_config : @config square_engine :=
  @mkConfig square_engine 1%Q false None.

End Fixture.

(** ** Layer files: [del_shp] *)
Module Files.

(** A path: the directory and the final component, as [Path.parent] and
    [Path.name] give them. *)
Record path : Type := mkPath {
  parent : string;
  name : string
}.

Definition path_eqb (a b : path) : bool :=
  String.eqb (parent a) (parent b) && String.eqb (name a) (name b).

Definition chars (s : string) : list ascii := list_ascii_of_string s.

Definition dot : ascii := "."%char.

(** The split of a name at its last dot, [name.rfind('.')]: what is before
    the dot and what starts with it. *)
Fixpoint rsplit_dot (l : list ascii) : option (list ascii * list ascii) :=
  match l with
  | [] => None
  | c :: l' =>
      match rsplit_dot l' with
      | Some (a, b) => Some (c :: a, b)
      | None => if Ascii.eqb c dot then Some ([], c :: l') else None
      end
  end.

(** [0 < i < len(name) - 1] for the position [i] of the last dot. *)
Definition splits (ab : list ascii * list ascii) : bool :=
  (0 <? length (fst ab)) && (1 <? length (snd ab)).

(** [PurePath.suffix] *)
Definition suffix (p : path) : list ascii :=
  match rsplit_dot (chars (name p)) with
  | Some ab => if splits ab then snd ab else []
  | None => []
  end.

(** [PurePath.stem] *)
Definition stem (p : path) : list ascii :=
  match rsplit_dot (chars (name p)) with
  | Some ab => if splits ab then fst ab else chars (name p)
  | None => chars (name p)
  end.

Fixpoint chars_eqb (a b : list ascii) : bool :=
  match a, b with
  | [], [] => true
  | x :: a', y :: b' => Ascii.eqb x y && chars_eqb a' b'
  | _, _ => false
  end.

(** *** Wildcards, as [fnmatch.translate] reads them *)

Inductive tok : Type :=
| TStar                                       (* [*] *)
| TAny                                        (* [?] *)
| TLit (c : ascii)
| TClass (neg : bool) (items : list (ascii * ascii)).   (* [[seq]], [[!seq]] *)

(** The text of a character class: from just after the bracket to the
    closing one, which is not looked for at the very start (nor right after
    a leading [!]).  [None] when the bracket is never closed. *)
Fixpoint until_close (l : list ascii) : option (list ascii * list ascii) :=
  match l with
  | [] => None
  | c :: l' =>
      if Ascii.eqb c "]"%char then Some ([], l')
      else match until_close l' with
           | Some (a, b) => Some (c :: a, b)
           | None => None
           end
  end.

Definition keep_first (c : ascii) (r : option (list ascii * list ascii))
  : option (list ascii * list ascii) :=
  match r with
  | Some (a, b) => Some (c :: a, b)
  | None => None
  end.

Definition class_text (l : list ascii) : option (list ascii * list ascii) :=
  match l with
  | "!"%char :: "]"%char :: l' =>
      keep_first "!"%char (keep_first "]"%char (until_close l'))
  | "!"%char :: l' => keep_first "!"%char (until_close l')
  | "]"%char :: l' => keep_first "]"%char (until_close l')
  | _ => until_close l
  end.

(** The members of a class: single characters and ranges [a-b]. *)
Fixpoint class_items (l : list ascii) : list (ascii * ascii) :=
  match l with
  | [] => []
  | a :: l' =>
      match l' with
      | "-"%char :: b :: rest => (a, b) :: class_items rest
      | _ => (a, a) :: class_items l'
      end
  end.

Definition class_tok (stuff : list ascii) : tok :=
  match stuff with
  | "!"%char :: s => TClass true (class_items s)
  | _ => TClass false (class_items stuff)
  end.

(** The tokens of a pattern; [fuel] is at least its length. *)
Fixpoint translate (fuel : nat) (pat : list ascii) : list tok :=
  match fuel with
  | O => []
  | S fuel' =>
      match pat with
      | [] => []
      | c :: pat' =>
          if Ascii.eqb c "*"%char then TStar :: translate fuel' pat'
          else if Ascii.eqb c "?"%char then TAny :: translate fuel' pat'
          else if Ascii.eqb c "["%char then
            match class_text pat' with
            | None => TLit c :: translate fuel' pat'
            | Some (stuff, rest) => class_tok stuff :: translate fuel' rest
            end
          else TLit c :: translate fuel' pat'
      end
  end.

Definition in_class (items : list (ascii * ascii)) (c : ascii) : bool :=
  existsb (fun r => (nat_of_ascii (fst r) <=? nat_of_ascii c) &&
                    (nat_of_ascii c <=? nat_of_ascii (snd r))) items.

(** [re.fullmatch] of the translated pattern. *)
Fixpoint match_toks (ts : list tok) (s : list ascii) : bool :=
  match ts with
  | [] => match s with [] => true | _ => false end
  | TStar :: ts' =>
      (fix star (s : list ascii) : bool :=
         match_toks ts' s ||
         match s with
         | [] => false
         | _ :: s' => star s'
         end) s
  | TAny :: ts' =>
      match s with
      | [] => false
      | _ :: s' => match_toks ts' s'
      end
  | TLit c :: ts' =>
      match s with
      | [] => false
      | d :: s' => Ascii.eqb c d && match_toks ts' s'
      end
  | TClass neg items :: ts' =>
      match s with
      | [] => false
      | d :: s' => xorb neg (in_class items d) && match_toks ts' s'
      end
  end.

Definition fnmatch (pat s : list ascii) : bool :=
  match_toks (translate (length pat) pat) s.

(** Whether a pattern holds two stars in a row, which pathlib refuses
    inside a component. *)
Fixpoint has_double_star (pat : list ascii) : bool :=
  match pat with
  | a :: pat' =>
      match pat' with
      | b :: _ =>
          (Ascii.eqb a "*"%char && Ascii.eqb b "*"%char) || has_double_star pat'
      | [] => false
      end
  | [] => false
  end.

(** The files of a tree, one entry per regular file. *)
Definition tree : Type := list path.

(** [dir.glob(pattern)] for a pattern of one component holding a
    wildcard: the entries of [dir] whose name matches. *)
Definition glob (fs : tree) (dir : string) (pattern : list ascii)
  : res (list path) :=
  if has_double_star pattern then Raise ValueError
  else Ok (filter (fun f => String.eqb (parent f) dir &&
                            fnmatch pattern (chars (name f))) fs).

(** [Path.unlink] *)
Definition unlink (fs : tree) (f : path) : tree :=
  filter (fun g => negb (path_eqb g f)) fs.

(** [del_shp]: the tree afterwards and how the call ended. *)
Definition del_shp (fs : tree) (fp : path) : tree * res unit :=
  if chars_eqb (suffix fp) (chars ".shp") then
    match glob fs (parent fp) (stem fp ++ chars ".*") with
    | Raise e => (fs, Raise e)
    | Ok found => (fold_left unlink found fs, Ok tt)
    end
  else (fs, Raise Warning).




(** A directory with the files of three layers, one of them named with a
    bracket. *)
Definition shelf : tree :=
  [ mkPath "d" "a[b].shp"; mkPath "d" "a[b].dbf";
    mkPath "d" "ab.shp"; mkPath "d" "roads.shp"; mkPath "d" "roads.prj" ].

End Files.

(** ** What the further properties are stated with *)
Section MoreLaws.
Context {E : Engine}.

(** The column [raster_diff] of lines 255-263 for a candidate [t] of the
    sliver [r]. *)
Definition raster_diff (rst : raster) (c : crs) (r t : row) : Q :=
  Qabs (zonal_mean rst c (get_parts (geom t))
        - zonal_mean rst c (get_parts (geom r))).

(** A candidate as lines 231-237 admit it: it touches or intersects the
    sliver, differs from it in some category column and, with keep columns,
    agrees with it in all of them. *)
Definition admissible (cfg : config) (r t : row) : Prop :=
  touches (geom t) (geom r) || intersects (geom t) (geom r) = true /\
  cat_differs (cat t) (cat r) = true /\
  (keep_cols cfg = true -> keep t = keep r).

(** A row as [fillna] leaves it: no null in its category and keep
    columns.  Comparisons and grouping of nulls are not what they are for
    other values; the frames of the loop hold none. *)
Definition filled (r : row) : Prop := ~ In VNull (cat r ++ keep r).


End MoreLaws.

(** ** The module's own [explode] *)
Module Legacy.
Section Explode.
Context {E : Engine}.

(** The columns of a row besides the geometry. *)
Variable attrs : Type.

(** What the geometry column of a row holds for [explode]: a Polygon or a
    MultiPolygon, or something of another type (a point, a line, a
    collection, nothing). *)
Inductive cell : Type :=
| Areal (g : geometry)
| Other.

Record record : Type := mkRecord {
  name : nat;              (* the index label *)
  geometry_of : cell;
  rest : attrs
}.

Definition set_name (n : nat) (r : record) : record :=
  mkRecord n (geometry_of r) (rest r).
Definition set_geometry (g : cell) (r : record) : record :=
  mkRecord (name r) g (rest r).

Fixpoint relabel_from (n : nat) (l : list record) : list record :=
  match l with
  | [] => []
  | r :: l' => set_name n r :: relabel_from (S n) l'
  end.

(** [df.append(other, ignore_index=True)] *)
Definition append (df other : list record) : list record :=
  relabel_from 0 (df ++ other).

(** [df.loc[k, 'geometry'] = g] on a frame that has the label. *)
Definition set_loc (k : nat) (g : cell) (df : list record) : list record :=
  map (fun r => if name r =? k then set_geometry g r else r) df.

(** Lines 127-131: the row [recs] times, then one part in each copy. *)
Definition multdf (row : record) (parts : list poly) : list record :=
  let recs := length parts in
  fold_left
    (fun df k => match nth_error parts k with
                 | Some p => set_loc k (Areal (Polygon p)) df
                 | None => df
                 end)
    (seq 0 recs) (append [] (repeat row recs)).

(** The body of the loop, lines 124-132. *)
Definition step (outgdf : list record) (row : record) : list record :=
  let outgdf :=
    match geometry_of row with
    | Areal (Polygon _) => append outgdf [row]
    | _ => outgdf
    end in
  match geometry_of row with
  | Areal (MultiPolygon ps) => append outgdf (multdf row ps)
  | _ => outgdf
  end.

Definition explode (ingdf : list record) : list record :=
  fold_left step ingdf [].

(** The rows a row of the input stands for in the output. *)
Definition pieces (r : record) : list record :=
  match geometry_of r with
  | Areal (Polygon _) => [r]
  | Areal (MultiPolygon ps) =>
      map (fun p => set_geometry (Areal (Polygon p)) r) ps
  | Other => []
  end.

Definition holds_polygon (r : record) : Prop :=
  match geometry_of r with
  | Areal (Polygon _) => True
  | _ => False
  end.

End Explode.

Arguments Areal {E} g.
Arguments Other {E}.
Arguments mkRecord {E attrs} name geometry_of rest.
Arguments name {E attrs} r.
Arguments geometry_of {E attrs} r.
Arguments rest {E attrs} r.

(** A row of the frames of [simplify_shps] as a row of [explode]. *)
Definition of_row {E : Engine} (r : row)
  : record (list value * list value * bool) :=
  mkRecord (idx r) (Areal (geom r)) (cat r, keep r, changed r).

End Legacy.

(** ** Points around a point: [neighboor_xys] *)
Module Neighbours.
Section Neighbours.

(** The numbers of numpy: [F] with its comparison [==], its zero, negation,
    sum and product, and the five constants the function computes from
    [np.pi]. *)
Variable F : Type.
Variable eqb : F -> F -> bool.
Variable zero : F.
Variable neg : F -> F.
Variables add mul : F -> F -> F.
Variables cos_pi_4 cos_pi_8 sin_pi_8 cos_3pi_8 sin_3pi_8 : F.

Definition xy : Type := (F * F)%type.

(** [==] on tuples. *)
Definition xy_eqb (a b : xy) : bool :=
  eqb (fst a) (fst b) && eqb (snd a) (snd b).

(** [itertools.product] of two lists. *)
Definition product (xs ys : list F) : list xy := list_prod xs ys.

(** [list.remove]: the first item equal to [x] goes; none is an error. *)
Fixpoint remove (x : xy) (l : list xy) : res (list xy) :=
  match l with
  | [] => Raise ValueError
  | y :: l' =>
      if xy_eqb y x then Ok l'
      else l'' <- remove x l' ;; Ok (y :: l'')
  end.

(** The loop of lines 92-93. *)
Fixpoint remove_each (rems : list xy) (l : list xy) : res (list xy) :=
  match rems with
  | [] => Ok l
  | rem :: rems' => l' <- remove rem l ;; remove_each rems' l'
  end.

Definition neighboor_xys (xy_null : xy) (dist : F) : res (list xy) :=
  let diag_dist := mul cos_pi_4 dist in
  let diag_adds_1 :=
    product [diag_dist; neg diag_dist] [diag_dist; neg diag_dist] in
  let diag_adds_2 :=
    product [mul cos_pi_8 dist; mul (neg cos_pi_8) dist]
            [mul sin_pi_8 dist; mul (neg sin_pi_8) dist] in
  let diag_adds_3 :=
    product [mul cos_3pi_8 dist; mul (neg cos_3pi_8) dist]
            [mul sin_3pi_8 dist; mul (neg sin_3pi_8) dist] in
  rect_adds <-
    remove_each (product [dist; neg dist] [dist; neg dist] ++ [(zero, zero)])
                (product [dist; zero; neg dist] [dist; zero; neg dist]) ;;
  let neigh_xys_adds := rect_adds ++ diag_adds_1 ++ diag_adds_2 ++ diag_adds_3
  in
  Ok (map (fun a => (add (fst xy_null) (fst a), add (snd xy_null) (snd a)))
          neigh_xys_adds).

(** The four steps along the axes, in the order they come out. *)
Definition axis_steps (dist : F) : list xy :=
  [(dist, zero); (zero, dist); (zero, neg dist); (neg dist, zero)].

End Neighbours.
End Neighbours.

(** ** Contour polygons: [raster_to_contour_polys] *)
Module Contours.
Section Contours.

(** Points and shapely polygons, the affine transformation applied to a
    point, [Polygon(...)] of a list of points, [difference] and
    [buffer(0)]. *)
Variables point polygon : Type.
Variable transform : point -> point.
Variable Polygon : list point -> polygon.
Variable difference : polygon -> polygon -> polygon.
Variable buffer0 : polygon -> polygon.

(** A path of a contour collection: the number of its vertices,
    [len(path)], and the rings [path.to_polygons()] gives. *)
Record path : Type := mkContour {
  vertices : nat;
  to_polygons : list (list point)
}.

(** How the call ends: with the series, or with the [AttributeError] of
    [None.difference]. *)
Inductive outcome (A : Type) : Type :=
| Returns (a : A)
| AttributeError.
Arguments Returns {A} a.
Arguments AttributeError {A}.

(** Lines 522-531: the rings of one path from position [j] on, [poly] being
    the variable of that name. *)
Fixpoint rings_loop (j : nat) (rings : list (list point))
  (poly : option polygon) : outcome (option polygon) :=
  match rings with
  | [] => Returns poly
  | path_j :: rings' =>
      if length path_j <=? 2 then rings_loop (S j) rings' poly
      else
        let new_shape := Polygon (map transform path_j) in
        match j with
        | O => rings_loop (S j) rings' (Some new_shape)
        | S _ =>
            match poly with
            | None => AttributeError
            | Some p => rings_loop (S j) rings' (Some (difference p new_shape))
            end
        end
  end.

(** Lines 518-534: the paths of collection [i]; [acc] holds the polygons
    and their categories found so far, in the order they were appended. *)
Fixpoint paths_loop (i : nat) (paths : list path)
  (acc : list (nat * polygon)) : outcome (list (nat * polygon)) :=
  match paths with
  | [] => Returns acc
  | p :: paths' =>
      if vertices p <=? 2 then paths_loop i paths' acc
      else
        match rings_loop 0 (to_polygons p) None with
        | AttributeError => AttributeError
        | Returns None => paths_loop i paths' acc
        | Returns (Some poly) => paths_loop i paths' (acc ++ [(i, poly)])
        end
  end.

(** Lines 514-534: the collections from number [i] on. *)
Fixpoint collections_loop (i : nat) (collections : list (list path))
  (acc : list (nat * polygon)) : outcome (list (nat * polygon)) :=
  match collections with
  | [] => Returns acc
  | paths :: collections' =>
      match paths_loop i paths acc with
      | AttributeError => AttributeError
      | Returns acc' => collections_loop (S i) collections' acc'
      end
  end.

(** The function on the collections [plt.contourf] made: the series as the
    list of its (label, polygon) entries. *)
Definition raster_to_contour_polys (collections : list (list path))
  : outcome (list (nat * polygon)) :=
  match collections_loop 0 collections [] with
  | AttributeError => AttributeError
  | Returns acc => Returns (map (fun e => (fst e, buffer0 (snd e))) acc)
  end.

(** A ring that makes a polygon: more than two points. *)
Definition usable (ring : list point) : bool := 2 <? length ring.

(** A path on which the call fails: it is looked at, its first ring is
    skipped and a later one is not. *)
Definition headless (p : path) : bool :=
  (2 <? vertices p) &&
  match to_polygons p with
  | [] => false
  | first :: others => negb (usable first) && existsb usable others
  end.

(** The polygon of a path seen as an outer ring and its holes. *)
Definition with_holes (p : path) : option polygon :=
  match to_polygons p with
  | [] => None
  | outer :: holes =>
      Some (fold_left (fun poly h => difference poly
                                       (Polygon (map transform h)))
                      holes (Polygon (map transform outer)))
  end.

(** A set of collections as contouring gives them when nothing is
    degenerate: every path has more than two vertices and every ring more
    than two points. *)
Definition regular (collections : list (list path)) : Prop :=
  forall paths p, In paths collections -> In p paths ->
    2 < vertices p /\ forall ring, In ring (to_polygons p) -> 2 < length ring.

(** The entries of a regular set of collections, from number [i] on. *)
Fixpoint entries (i : nat) (collections : list (list path))
  : list (nat * polygon) :=
  match collections with
  | [] => []
  | paths :: collections' =>
      flat_map (fun p => match with_holes p with
                         | Some poly => [(i, buffer0 poly)]
                         | None => []
                         end) paths
      ++ entries (S i) collections'
  end.

End Contours.

Arguments Returns {A} a.
Arguments AttributeError {A}.
Arguments mkContour {point} vertices to_polygons.
Arguments vertices {point} p.
Arguments to_polygons {point} p.

End Contours.

(** ** Resampling: [resample_raster] for a whole-number [scale] *)
Module Resample.

(** An affine transformation [(a, b, c, d, e, f)]: pixel (col, row) lies at
    [(a col + b row + c, d col + e row + f)]. *)
Record affine : Type := mkAffine {
  a : Q; b : Q; c : Q;
  d : Q; e : Q; f : Q
}.

(** [Affine.scale(sx, sy)] and the product of two transformations. *)
Definition scale_of (sx sy : Q) : affine := mkAffine sx 0 0 0 sy 0.

Definition compose (m n : affine) : affine :=
  mkAffine (a m * a n + b m * d n) (a m * b n + b m * e n)
           (a m * c n + b m * f n + c m)
           (d m * a n + e m * d n) (d m * b n + e m * e n)
           (d m * c n + e m * f n + f m).

Definition apply (m : affine) (col row : Q) : Q * Q :=
  (a m * col + b m * row + c m, d m * col + e m * row + f m)%Q.

(** What the function reads from the input raster and what it writes. *)
Record raster_file : Type := mkRasterFile {
  count : Z;
  height : Z;
  width : Z;
  transform : affine
}.

(** [x // y] *)
Definition floordiv (x y : Z) : option Z :=
  if (y =? 0)%Z then None else Some (x / y)%Z.

(** Lines 47-74: the shape that is read, the transformation and the
    profile that is written.  [None]: the call does not get that far, no
    array of that shape can be read or line 58 divides by zero. *)
Definition resample_raster (input_raster : raster_file) (scale : Z)
  : option raster_file :=
  let shape := (count input_raster,
                (height input_raster * scale)%Z,
                (width input_raster * scale)%Z) in
  if (scale <=? 0)%Z then None
  else
    match floordiv (width input_raster) (snd shape),
          floordiv (height input_raster) (snd (fst shape)) with
    | Some sx, Some sy =>
        Some (mkRasterFile
                (count input_raster)
                (height input_raster * scale)
                (width input_raster * scale)
                (compose (transform input_raster)
                         (scale_of (inject_Z sx) (inject_Z sy))))
    | _, _ => None
    end.

End Resample.

(** ** Scenes for the functions above *)
Module Scenes.
Import Fixture.

(** The three squares again, the square across the midlines labelled like
    the first one. *)
Definition twin : @row square_engine := set_idx 0 (square 2).

Definition twin_rows : list (@row square_engine) :=
  [square 0; square 1; twin].

(** Contours on numbered points: a polygon is written as the list of the
    rings it was made of, the outer one first. *)
Definition drawn : Type := list (list nat).

Definition draw (ring : list nat) : drawn := [ring].

Definition cut_out (p q : drawn) : drawn := p ++ q.

(** Two levels with a path each, the first one with a hole, and an empty
    level between them. *)
Definition levels : list (list (Contours.path nat)) :=
  [ [Contours.mkContour 7 [[1; 2; 3; 4]; [5; 6; 7]]];
    [];
    [Contours.mkContour 3 [[8; 9; 10]]] ].

(** A raster of 30 by 20 cells of 10 units, its upper left corner at
    (500, 900). *)
Definition grid : Resample.raster_file :=
  Resample.mkRasterFile 1 20 30
    (Resample.mkAffine 10 0 500 0 (-10) 900).

End Scenes.

(** * Properties *)

Lemma Qltb_lt (x y : Q) : Qltb x y = true <-> (x < y)%Q.
Proof.
  unfold Qltb. rewrite negb_true_iff. split; intro H.
  - apply Qnot_le_lt. intro Hle. apply Qle_bool_iff in Hle. congruence.
  - destruct (Qle_bool y x) eqn:Hb; [|reflexivity].
    apply Qle_bool_iff in Hb. exfalso. exact (Qlt_not_le _ _ H Hb).
Qed.

Lemma Qltb_ge (x y : Q) : Qltb x y = false <-> (y <= x)%Q.
Proof.
  unfold Qltb. rewrite negb_false_iff. apply Qle_bool_iff.
Qed.

Lemma filter_filter {A} (p q : A -> bool) l :
  filter q (filter p l) = filter (fun x => p x && q x) l.
Proof.
  induction l as [|x l IH]; simpl; [reflexivity|].
  destruct (p x); simpl; [destruct (q x); now rewrite IH | exact IH].
Qed.

Lemma filter_map_seq_only {A} (P : A -> bool) (f : nat -> A) a n k :
  (forall i, k <= i < k + n -> P (f i) = (i =? a)) ->
  filter P (map f (seq k n)) =
    if (k <=? a) && (a <? k + n) then [f a] else [].
Proof.
  revert k. induction n as [|n IH]; intros k H.
  - cbn [seq map filter].
    destruct (Nat.leb_spec k a), (Nat.ltb_spec a (k + 0)); try reflexivity.
    lia.
  - cbn [seq map filter].
    rewrite (H k) by lia. rewrite (IH (S k)) by (intros i Hi; apply H; lia).
    destruct (Nat.eqb_spec k a), (Nat.leb_spec (S k) a),
      (Nat.leb_spec k a), (Nat.ltb_spec a (S k + n)),
      (Nat.ltb_spec a (k + S n)); cbn [andb]; subst; try lia; reflexivity.
Qed.

Lemma value_eqb_eq a b : value_eqb a b = true <-> a = b.
Proof.
  destruct a, b; simpl; split; intro H; try discriminate; try reflexivity.
  - apply Z.eqb_eq in H. now subst.
  - injection H as ->. apply Z.eqb_refl.
  - apply String.eqb_eq in H. now subst.
  - injection H as ->. apply String.eqb_refl.
Qed.

Lemma values_eqb_eq a b : values_eqb a b = true <-> a = b.
Proof.
  revert b. induction a as [|x a IH]; intros [|y b]; simpl;
    split; intro H; try discriminate; try reflexivity.
  - apply andb_true_iff in H. destruct H as [H1 H2].
    apply value_eqb_eq in H1. apply IH in H2. now subst.
  - injection H as -> ->. apply andb_true_iff. split.
    + now apply value_eqb_eq.
    + now apply IH.
Qed.

Section SimplifyFacts.
Context {E : Engine}.
Variable cfg : config.

(** ** Frames keep single parts *)

Lemma reindex_from_geom P n l :
  Forall (fun r => P (geom r)) l ->
  Forall (fun r => P (geom r)) (reindex_from n l).
Proof.
  intros H. revert n. induction H as [|r l Hr _ IH]; intro n; simpl.
  - constructor.
  - constructor; [exact Hr | apply IH].
Qed.

Lemma reindex_from_length n l : length (reindex_from n l) = length l.
Proof.
  revert n. induction l as [|r l IH]; intro n; simpl; [reflexivity|].
  now rewrite IH.
Qed.

Lemma explode_row_single r : Forall single_part (explode_row r).
Proof.
  unfold explode_row. destruct (geom r) as [p|ps] eqn:Hg.
  - constructor; [|constructor]. unfold single_part. now rewrite Hg.
  - apply Forall_forall. intros t Ht. apply in_map_iff in Ht.
    destruct Ht as [p [<- _]]. reflexivity.
Qed.

Lemma explode_single l : Forall single_part (explode l).
Proof.
  unfold explode, reset_index.
  apply (reindex_from_geom (fun g => is_Polygon g = true)).
  apply Forall_forall. intros t Ht. apply in_flat_map in Ht.
  destruct Ht as [r [_ Ht]].
  pose proof (explode_row_single r) as H.
  rewrite Forall_forall in H. exact (H t Ht).
Qed.

Lemma map_keeps_single (f : row -> row) l :
  (forall r, geom (f r) = geom r) ->
  Forall single_part l -> Forall single_part (map f l).
Proof.
  intros Hf H. induction H as [|r l Hr _ IH]; simpl; constructor; auto.
  unfold single_part. now rewrite Hf.
Qed.

(** What a pass leaves behind. *)
Lemma pass_inv c st st' :
  pass cfg c st = Ok st' ->
  exists scanned,
    scan cfg c (gdf_out st) (mask_shps_small st) = Ok scanned /\
    gdf_out st' = map (set_changed false) (explode (dissolve cfg scanned)) /\
    len_before st' = length scanned /\
    len_after st' = length (explode (dissolve cfg scanned)) /\
    undersized cfg (Some c) (gdf_out st') = Ok (mask_shps_small st').
Proof.
  unfold pass. intros H.
  destruct (scan cfg c (gdf_out st) (mask_shps_small st)) as [scanned|e];
    simpl in H; [|discriminate].
  destruct (undersized cfg (Some c)
              (map (set_changed false) (explode (dissolve cfg scanned))))
    as [mask|e] eqn:Hm; simpl in H; [|discriminate].
  injection H as <-. exists scanned. simpl. auto.
Qed.

Lemma pass_single c st st' :
  pass cfg c st = Ok st' -> Forall single_part (gdf_out st').
Proof.
  intros H. apply pass_inv in H. destruct H as [scanned [_ [-> _]]].
  apply map_keeps_single; [reflexivity | apply explode_single].
Qed.

Lemma simplify_loop_single fuel c st out :
  Forall single_part (gdf_out st) ->
  simplify_loop cfg fuel c st = Some (Ok out) ->
  Forall single_part out.
Proof.
  revert st. induction fuel as [|fuel IH]; intros st Hst H; simpl in H.
  - destruct (loop_cond st); [discriminate|]. now injection H as <-.
  - destruct (loop_cond st).
    + destruct (pass cfg c st) as [st'|e] eqn:Hp; [|discriminate].
      apply (IH st'); [exact (pass_single _ _ _ Hp) | exact H].
    + now injection H as <-.
Qed.

Lemma init_state_inv gdf_in st :
  init_state cfg gdf_in = Ok st ->
  gdf_out st = map (set_changed false) (prepare (rows gdf_in)) /\
  undersized cfg (frame_crs gdf_in) (prepare (rows gdf_in))
    = Ok (mask_shps_small st) /\
  len_before st = 3 /\ len_after st = 2.
Proof.
  unfold init_state. intros H.
  destruct (undersized cfg (frame_crs gdf_in) (prepare (rows gdf_in)))
    as [mask|e]; simpl in H; [|discriminate].
  injection H as <-. simpl. auto.
Qed.

Lemma prepare_single l : Forall single_part (prepare l).
Proof.
  unfold prepare. apply map_keeps_single; [reflexivity | apply explode_single].
Qed.

(** C8.  Every row of a frame returned by [simplify_shps] holds a Polygon:
    no MultiPolygon reaches the output, whatever the input frame holds. *)
Theorem simplify_shps_no_multipart fuel gdf_in out :
  simplify_shps cfg fuel gdf_in = Some (Ok out) ->
  Forall (fun r => is_Polygon (geom r) = true) (rows out).
Proof.
  unfold simplify_shps. intros H.
  destruct (init_state cfg gdf_in) as [st|e] eqn:Hi; [|discriminate].
  destruct (frame_crs gdf_in) as [c|]; [|discriminate].
  destruct (simplify_loop cfg fuel c st) as [[l|e]|] eqn:Hl;
    try discriminate.
  injection H as <-. simpl.
  apply init_state_inv in Hi. destruct Hi as [Hg _].
  assert (Hs : Forall single_part (gdf_out st)).
  { rewrite Hg. apply map_keeps_single; [reflexivity | apply prepare_single]. }
  pose proof (simplify_loop_single _ _ _ _ Hs Hl) as Hout.
  unfold finish. apply (map_keeps_single _ l); [reflexivity | exact Hout].
Qed.

(** ** The loop condition *)

Lemma loop_cond_false st :
  loop_cond st = false <->
  mask_shps_small st = [] \/ len_before st = len_after st.
Proof.
  unfold loop_cond. rewrite andb_false_iff, negb_false_iff.
  rewrite Nat.ltb_ge, Nat.eqb_eq. split; intros [H|H]; auto.
  - left. destruct (mask_shps_small st); [reflexivity | simpl in H; lia].
  - left. rewrite H. simpl. lia.
Qed.

(** ** Candidate sets *)


(** ** The undersized set and its order *)

Lemma take_rows_seq_app (pre l : list row) :
  take_rows (pre ++ l) (seq (length pre) (length l)) = l.
Proof.
  revert pre. induction l as [|r l IH]; intro pre; [reflexivity|].
  simpl. rewrite nth_error_app2 by lia. rewrite Nat.sub_diag. simpl.
  f_equal. specialize (IH (pre ++ [r])).
  rewrite <- app_assoc, length_app in IH. simpl in IH.
  rewrite Nat.add_1_r in IH. exact IH.
Qed.

Lemma take_rows_seq (l : list row) : take_rows l (seq 0 (length l)) = l.
Proof. exact (take_rows_seq_app [] l). Qed.

Lemma sort_by_area_perm (l : list row) :
  sort_law -> Permutation (sort_by_area l) l.
Proof.
  intros [Hperm _]. unfold sort_by_area.
  specialize (Hperm (map (fun r => area (geom r)) l)).
  rewrite length_map in Hperm.
  apply Permutation_trans with (take_rows l (seq 0 (length l))).
  - unfold take_rows. apply Permutation_flat_map. exact Hperm.
  - rewrite take_rows_seq. apply Permutation_refl.
Qed.




Lemma undersized_inv c g mask :
  undersized cfg c g = Ok mask ->
  exists c', c = Some c' /\
    mask = sort_by_area
      (filter (fun r => Qltb (area_epsg31467 c' (geom r)) (area_lim cfg)) g).
Proof.
  unfold undersized, small_mask. destruct c as [c'|]; simpl; intro H.
  - exists c'. split; [reflexivity|]. now injection H as <-.
  - discriminate.
Qed.

Lemma set_changed_prepare l :
  map (set_changed false) (prepare l) = prepare l.
Proof.
  unfold prepare. rewrite map_map. reflexivity.
Qed.


Lemma init_at_loop_head gdf_in c st :
  frame_crs gdf_in = Some c ->
  init_state cfg gdf_in = Ok st -> at_loop_head cfg c st.
Proof.
  intros Hc Hi. apply init_state_inv in Hi. destruct Hi as [Hg [Hm _]].
  unfold at_loop_head. rewrite Hg, set_changed_prepare, <- Hc. exact Hm.
Qed.

Lemma pass_at_loop_head c st st' :
  pass cfg c st = Ok st' -> at_loop_head cfg c st'.
Proof.
  intros Hp. apply pass_inv in Hp. destruct Hp as [_ [_ [_ [_ [_ H]]]]].
  exact H.
Qed.

(** At the head of the loop the mask is empty exactly when no row of the
    frame is below the limit. *)
Lemma mask_empty_iff (Hsort : sort_law) c st :
  at_loop_head cfg c st ->
  (mask_shps_small st = [] <->
   forall r, In r (gdf_out st) -> ~ below_limit cfg c r).
Proof.
  intros Hst. apply undersized_inv in Hst.
  destruct Hst as [c' [Hc Hm]]. injection Hc as <-.
  pose proof (sort_by_area_perm
    (filter (fun r => Qltb (area_epsg31467 c (geom r)) (area_lim cfg))
            (gdf_out st)) Hsort) as Hperm.
  rewrite <- Hm in Hperm. split.
  - intros He r Hr Hlt. rewrite He in Hperm.
    apply Permutation_nil in Hperm.
    assert (Hin : In r (filter (fun r => Qltb (area_epsg31467 c (geom r))
                                             (area_lim cfg)) (gdf_out st))).
    { apply filter_In. split; [exact Hr | now apply Qltb_lt]. }
    rewrite Hperm in Hin. exact Hin.
  - intros H. destruct (mask_shps_small st) as [|r m] eqn:He;
      [reflexivity|].
    exfalso. assert (Hin : In r (r :: m)) by now left.
    apply (Permutation_in _ Hperm) in Hin. apply filter_In in Hin.
    destruct Hin as [Hin Hlt]. apply Qltb_lt in Hlt. exact (H r Hin Hlt).
Qed.

(** C1.  The loop returns the frame it holds, without another pass, when
    the undersized set is empty or the two feature counts are equal; in
    every other case it runs one more pass and goes on from the state that
    pass leaves, whose counts are those before the dissolve and after the
    dissolve and explode.  The loop is entered with counts that differ.
    Whenever the condition is evaluated, the mask is the undersized set of
    the frame, empty exactly when no feature is below the limit. *)
Theorem simplify_loop_exit fuel c st :
  (mask_shps_small st = [] \/ len_before st = len_after st ->
   simplify_loop cfg fuel c st = Some (Ok (gdf_out st))) /\
  (~ (mask_shps_small st = [] \/ len_before st = len_after st) ->
   simplify_loop cfg (S fuel) c st =
     match pass cfg c st with
     | Ok st' => simplify_loop cfg fuel c st'
     | Raise e => Some (Raise e)
     end) /\
  (forall st', pass cfg c st = Ok st' ->
     at_loop_head cfg c st' /\
     exists scanned,
       scan cfg c (gdf_out st) (mask_shps_small st) = Ok scanned /\
       len_before st' = length scanned /\
       len_after st' = length (explode (dissolve cfg scanned))) /\
  (forall gdf_in, init_state cfg gdf_in = Ok st ->
     len_before st <> len_after st /\
     (frame_crs gdf_in = Some c -> at_loop_head cfg c st)) /\
  (sort_law -> at_loop_head cfg c st ->
     (mask_shps_small st = [] <->
      forall r, In r (gdf_out st) -> ~ below_limit cfg c r)).
Proof.
  split; [|split; [|split; [|split]]].
  - intros H. apply loop_cond_false in H.
    destruct fuel; simpl; now rewrite H.
  - intros H. destruct (loop_cond st) eqn:Hc.
    + simpl. rewrite Hc. destruct (pass cfg c st); reflexivity.
    + apply loop_cond_false in Hc. contradiction.
  - intros st' Hp. split; [exact (pass_at_loop_head _ _ _ Hp)|].
    apply pass_inv in Hp.
    destruct Hp as [scanned [Hs [_ [Hb [Ha _]]]]].
    exists scanned. auto.
  - intros gdf_in Hi. split.
    + apply init_state_inv in Hi.
      destruct Hi as [_ [_ [-> ->]]]. discriminate.
    + intros Hc. exact (init_at_loop_head _ _ _ Hc Hi).
  - intros Hsort Hst. now apply mask_empty_iff.
Qed.



(** C10.  The undersized set is taken by the area in EPSG:31467: at the
    start of every pass a row is in the mask exactly when it is a row of the
    frame whose reprojected area is below [area_lim]; and a frame without
    CRS makes the call raise, for every input and whatever its areas. *)
Theorem threshold_in_epsg31467 (Hsort : sort_law) :
  (forall c gdf_in st,
     frame_crs gdf_in = Some c -> init_state cfg gdf_in = Ok st ->
     at_loop_head cfg c st) /\
  (forall c st st', pass cfg c st = Ok st' -> at_loop_head cfg c st') /\
  (forall c st, at_loop_head cfg c st ->
     forall r, In r (mask_shps_small st) <->
               In r (gdf_out st) /\ below_limit cfg c r) /\
  (forall fuel gdf_in,
     frame_crs gdf_in = None ->
     simplify_shps cfg fuel gdf_in = Some (Raise ValueError)).
Proof.
  split; [|split; [|split]].
  - intros c gdf_in st Hc Hi. exact (init_at_loop_head _ _ _ Hc Hi).
  - intros c st st' Hp. exact (pass_at_loop_head _ _ _ Hp).
  - intros c st Hst r. apply undersized_inv in Hst.
    destruct Hst as [c' [Hc Hm]]. injection Hc as <-. rewrite Hm.
    split.
    + intros Hin.
      apply (Permutation_in _ (sort_by_area_perm _ Hsort)) in Hin.
      apply filter_In in Hin. destruct Hin as [Hin Hlt].
      split; [exact Hin | now apply Qltb_lt].
    + intros [Hin Hlt].
      apply (Permutation_in _ (Permutation_sym (sort_by_area_perm _ Hsort))).
      apply filter_In. split; [exact Hin | now apply Qltb_lt].
  - intros fuel gdf_in Hc. unfold simplify_shps, init_state, undersized.
    rewrite Hc. reflexivity.
Qed.

(** ** Feature counts across a pass *)

Lemma insert_group_count r gs :
  length (concat (insert_group cfg r gs)) = S (length (concat gs)).
Proof.
  induction gs as [|g gs IH]; simpl; [reflexivity|].
  destruct g as [|h g']; [exact IH|].
  destruct (values_eqb (dis_key cfg h) (dis_key cfg r)); simpl.
  - rewrite !length_app. simpl. lia.
  - rewrite !length_app. rewrite IH. lia.
Qed.

Lemma groups_count_from l gs :
  length (concat (fold_left (fun gs r => insert_group cfg r gs) l gs))
  = length l + length (concat gs).
Proof.
  revert gs. induction l as [|r l IH]; intro gs; simpl; [reflexivity|].
  rewrite IH, insert_group_count. lia.
Qed.

Lemma groups_count l : length (concat (groups cfg l)) = length l.
Proof. unfold groups. rewrite groups_count_from. simpl. lia. Qed.

Lemma insert_group_single r gs :
  single_part r -> Forall (Forall single_part) gs ->
  Forall (Forall single_part) (insert_group cfg r gs).
Proof.
  intros Hr H. induction H as [|g gs Hg Hgs IH]; simpl.
  - repeat constructor. exact Hr.
  - destruct g as [|h g']; [exact IH|].
    destruct (values_eqb (dis_key cfg h) (dis_key cfg r)).
    + constructor; [|assumption]. apply Forall_app. split; [exact Hg|].
      repeat constructor. exact Hr.
    + constructor; assumption.
Qed.

Lemma groups_single l :
  Forall single_part l -> Forall (Forall single_part) (groups cfg l).
Proof.
  unfold groups. intros H.
  assert (Hacc : Forall (Forall single_part) (@nil (list row)))
    by constructor.
  revert Hacc. generalize (@nil (list row)) as gs.
  induction H as [|r l Hr _ IH]; intros gs Hgs; simpl; [exact Hgs|].
  apply IH. now apply insert_group_single.
Qed.

Lemma explode_row_count r : length (explode_row r) = length (get_parts (geom r)).
Proof.
  unfold explode_row. destruct (geom r); simpl; [reflexivity|].
  apply length_map.
Qed.

Lemma exploded_count_reindex n l :
  length (flat_map explode_row (reindex_from n l))
  = length (flat_map explode_row l).
Proof.
  revert n. induction l as [|r l IH]; intro n; simpl; [reflexivity|].
  rewrite !length_app, IH, !explode_row_count. reflexivity.
Qed.

Lemma single_parts_count g :
  Forall single_part g ->
  length (flat_map get_parts (map geom g)) = length g.
Proof.
  induction 1 as [|r g Hr _ IH]; simpl; [reflexivity|].
  rewrite length_app, IH. unfold single_part in Hr.
  destruct (geom r); [reflexivity | discriminate].
Qed.

Lemma unary_union_count gs :
  length (get_parts (unary_union gs))
  = length (union_parts (flat_map get_parts gs)).
Proof.
  unfold unary_union.
  destruct (union_parts (flat_map get_parts gs)) as [|p [|q ps]];
    reflexivity.
Qed.

Lemma dissolve_group_count g :
  union_law -> Forall single_part g ->
  length (flat_map explode_row (dissolve_group g)) <= length g.
Proof.
  intros Hu Hg. destruct g as [|h g']; simpl; [lia|].
  rewrite app_nil_r, explode_row_count. simpl geom.
  rewrite unary_union_count.
  etransitivity; [apply Hu|].
  pose proof (single_parts_count (h :: g') Hg) as Hc.
  simpl in Hc. simpl. lia.
Qed.

Lemma dissolved_groups_count gs :
  union_law -> Forall (Forall single_part) gs ->
  length (flat_map explode_row (flat_map dissolve_group gs))
  <= length (concat gs).
Proof.
  intros Hu H. induction H as [|g gs Hg _ IH]; simpl; [lia|].
  rewrite flat_map_app, !length_app.
  pose proof (dissolve_group_count g Hu Hg). lia.
Qed.

(** Dissolving and exploding does not add rows. *)
Lemma dissolve_explode_count l :
  union_law -> Forall single_part l ->
  length (explode (dissolve cfg l)) <= length l.
Proof.
  intros Hu Hl. unfold explode, dissolve, reset_index.
  rewrite reindex_from_length, exploded_count_reindex.
  rewrite <- (groups_count l).
  apply dissolved_groups_count; [exact Hu | now apply groups_single].
Qed.

Lemma replace_cat_length g i v : length (replace_cat g i v) = length g.
Proof. apply length_map. Qed.

Lemma resolve_length c g r g' :
  resolve cfg c g r = Ok g' -> length g' = length g.
Proof.
  unfold resolve. destruct (refresh cfg (valid_neighbors cfg g r)) as [t|].
  - destruct (select cfg c r t) as [sel|e]; simpl; [|discriminate].
    destruct (loc (snd sel) (fst sel)); [|discriminate].
    intros H. injection H as <-. apply replace_cat_length.
  - intros H. now injection H as <-.
Qed.

Lemma resolve_single c g r g' :
  resolve cfg c g r = Ok g' -> Forall single_part g -> Forall single_part g'.
Proof.
  unfold resolve. destruct (refresh cfg (valid_neighbors cfg g r)) as [t|].
  - destruct (select cfg c r t) as [sel|e]; simpl; [|discriminate].
    destruct (loc (snd sel) (fst sel)); [|discriminate].
    intros H Hg. injection H as <-. unfold replace_cat.
    apply map_keeps_single; [|exact Hg].
    intros t0. destruct (idx t0 =? idx r); reflexivity.
  - intros H. now injection H as <-.
Qed.

Lemma scan_keeps c m g g' :
  scan cfg c g m = Ok g' ->
  length g' = length g /\ (Forall single_part g -> Forall single_part g').
Proof.
  revert g. induction m as [|r m IH]; intro g; simpl.
  - intros H. injection H as <-. auto.
  - destruct (resolve cfg c g r) as [g1|e] eqn:Hr; simpl; [|discriminate].
    intros H. apply IH in H. destruct H as [Hl Hs].
    rewrite Hl. split; [exact (resolve_length _ _ _ _ Hr)|].
    intros Hg. apply Hs. exact (resolve_single _ _ _ _ Hr Hg).
Qed.

(** The counts a pass leaves: the frame's new size is [len_after], and it
    is at most [len_before], the size the frame had. *)
Lemma pass_counts c st st' :
  union_law -> Forall single_part (gdf_out st) ->
  pass cfg c st = Ok st' ->
  len_after st' = length (gdf_out st') /\
  len_before st' = length (gdf_out st) /\
  len_after st' <= len_before st'.
Proof.
  intros Hu Hs Hp. apply pass_inv in Hp.
  destruct Hp as [scanned [Hscan [Hg [Hb [Ha _]]]]].
  apply scan_keeps in Hscan. destruct Hscan as [Hl Hsingle].
  rewrite Hg, length_map, Ha, Hb, Hl. repeat split.
  rewrite <- Hl. apply dissolve_explode_count; auto.
Qed.

Lemma simplify_loop_stops fuel c st :
  union_law -> Forall single_part (gdf_out st) ->
  len_after st = length (gdf_out st) ->
  (loop_cond st = true -> len_after st < fuel) ->
  simplify_loop cfg fuel c st <> None.
Proof.
  intros Hu. revert st.
  induction fuel as [|fuel IH]; intros st Hs Ha Hf; simpl.
  - destruct (loop_cond st) eqn:Hcond; [|discriminate].
    specialize (Hf eq_refl). lia.
  - destruct (loop_cond st) eqn:Hcond; [|discriminate].
    destruct (pass cfg c st) as [st'|e] eqn:Hp; [|discriminate].
    destruct (pass_counts _ _ _ Hu Hs Hp) as [Ha' [Hb' Hle]].
    specialize (Hf eq_refl).
    apply IH.
    + exact (pass_single _ _ _ Hp).
    + exact Ha'.
    + intros Hcond'. unfold loop_cond in Hcond'.
      apply andb_true_iff in Hcond'. destruct Hcond' as [_ Hne].
      apply negb_true_iff, Nat.eqb_neq in Hne. lia.
Qed.

(** ** Runs of the loop *)

Lemma simplify_loop_more fuel k c st r :
  simplify_loop cfg fuel c st = Some r ->
  simplify_loop cfg (fuel + k) c st = Some r.
Proof.
  revert st. induction fuel as [|fuel IH]; intros st H; simpl in H.
  - destruct (loop_cond st) eqn:Hc; [discriminate|].
    destruct k; simpl; rewrite Hc; exact H.
  - simpl. destruct (loop_cond st); [|exact H].
    destruct (pass cfg c st) as [st'|e]; [now apply IH | exact H].
Qed.

Lemma simplify_loop_result fuel c st out :
  simplify_loop cfg fuel c st = Some (Ok out) ->
  exists n st', n <= fuel /\ passes cfg c n st st' /\
                loop_cond st' = false /\ out = gdf_out st'.
Proof.
  revert st. induction fuel as [|fuel IH]; intros st H; simpl in H.
  - destruct (loop_cond st) eqn:Hc; [discriminate|]. injection H as <-.
    exists 0, st. repeat split; [lia | constructor | exact Hc].
  - destruct (loop_cond st) eqn:Hc.
    + destruct (pass cfg c st) as [st1|e] eqn:Hp; [|discriminate].
      apply IH in H. destruct H as [n [st' [Hn [Hps [Hc' Ho]]]]].
      exists (S n), st'. repeat split; [lia | | exact Hc' | exact Ho].
      econstructor; eauto.
    + injection H as <-. exists 0, st.
      repeat split; [lia | constructor | exact Hc].
Qed.

Lemma passes_out_of_fuel n c st st' :
  passes cfg c n st st' -> loop_cond st' = true ->
  simplify_loop cfg n c st = None.
Proof.
  induction 1 as [st|n st st1 st2 Hc Hp _ IH]; intro Hc'; simpl.
  - now rewrite Hc'.
  - rewrite Hc, Hp. now apply IH.
Qed.

(** C2.  The loop has no counter and no report of its own: it returns only
    from a state in which its condition fails, reached by passes that each
    found the condition true, and what it returns is the frame of that
    state, the one the last dissolve left.  That it always comes to such a
    state is owed to the engine: when a union never has more parts than went
    into it, [n + 1] passes are enough for an input of [n] single-part
    features, and the call returns a frame or raises. *)
Theorem simplify_shps_stops (Hu : union_law) gdf_in :
  (exists r, forall fuel,
     S (length (prepare (rows gdf_in))) <= fuel ->
     simplify_shps cfg fuel gdf_in = Some r) /\
  (forall fuel out,
     simplify_shps cfg fuel gdf_in = Some (Ok out) ->
     exists c st0 n st,
       frame_crs gdf_in = Some c /\ init_state cfg gdf_in = Ok st0 /\
       n <= fuel /\ passes cfg c n st0 st /\
       (mask_shps_small st = [] \/ len_before st = len_after st) /\
       rows out = finish (gdf_out st)).
Proof.
  split.
  - set (n := length (prepare (rows gdf_in))).
    assert (Hex : exists r, simplify_shps cfg (S n) gdf_in = Some r).
    { unfold simplify_shps.
      destruct (init_state cfg gdf_in) as [st|e] eqn:Hi; [|eauto].
      destruct (frame_crs gdf_in) as [c|]; [|eauto].
      assert (Hl : simplify_loop cfg (S n) c st <> None).
      { pose proof (init_state_inv _ _ Hi) as [Hg _].
        assert (Hs : Forall single_part (gdf_out st)).
        { rewrite Hg. apply map_keeps_single; [reflexivity|].
          apply prepare_single. }
        simpl. destruct (loop_cond st); [|discriminate].
        destruct (pass cfg c st) as [st'|e] eqn:Hp; [|discriminate].
        destruct (pass_counts _ _ _ Hu Hs Hp) as [Ha' [Hb' Hle]].
        apply simplify_loop_stops; auto.
        - exact (pass_single _ _ _ Hp).
        - intros Hc. unfold loop_cond in Hc.
          apply andb_true_iff in Hc. destruct Hc as [_ Hne].
          apply negb_true_iff, Nat.eqb_neq in Hne.
          rewrite Hg, length_map in Hb'. fold n in Hb'. lia. }
      destruct (simplify_loop cfg (S n) c st) as [[l|e]|]; eauto.
      contradiction. }
    destruct Hex as [r Hr]. exists r. intros fuel Hf.
    replace fuel with (S n + (fuel - S n)) by lia.
    revert Hr. unfold simplify_shps.
    destruct (init_state cfg gdf_in) as [st|e]; [|auto].
    destruct (frame_crs gdf_in) as [c|]; [|auto].
    destruct (simplify_loop cfg (S n) c st) as [r'|] eqn:Hl; [|discriminate].
    rewrite (simplify_loop_more _ (fuel - S n) _ _ _ Hl). auto.
  - intros fuel out H. unfold simplify_shps in H.
    destruct (init_state cfg gdf_in) as [st0|e] eqn:Hi; [|discriminate].
    destruct (frame_crs gdf_in) as [c|]; [|discriminate].
    destruct (simplify_loop cfg fuel c st0) as [[l|e]|] eqn:Hl;
      try discriminate.
    injection H as <-.
    apply simplify_loop_result in Hl.
    destruct Hl as [n [st [Hn [Hps [Hc Ho]]]]].
    exists c, st0, n, st. repeat split; auto.
    + now apply loop_cond_false.
    + simpl. now rewrite Ho.
Qed.

(** ** Scores and the choice among them *)














(** ** The four parts and the excluded shapes *)

Lemma label_determines_row (l : list row) r r' :
  NoDup (labels l) -> In r l -> In r' l -> idx r = idx r' -> r = r'.
Proof.
  unfold labels. induction l as [|h l IH]; simpl; [contradiction|].
  intros Hnd Hr Hr' He. inversion Hnd as [|x xs Hnotin Hnd']; subst.
  destruct Hr as [<-|Hr], Hr' as [<-|Hr']; auto.
  - exfalso. apply Hnotin. rewrite He. now apply in_map.
  - exfalso. apply Hnotin. rewrite <- He. now apply in_map.
Qed.

Lemma isin_spec i ls : isin i ls = true <-> In i ls.
Proof.
  unfold isin. rewrite existsb_exists. split.
  - intros [j [Hj He]]. apply Nat.eqb_eq in He. now subst.
  - intros H. exists i. split; [exact H | apply Nat.eqb_refl].
Qed.

Lemma isin_labels (l sub : list row) r :
  NoDup (labels l) -> incl sub l -> In r l ->
  (isin (idx r) (labels sub) = true <-> In r sub).
Proof.
  intros Hnd Hincl Hr. rewrite isin_spec. unfold labels. split.
  - intros H. apply in_map_iff in H. destruct H as [r' [He Hr']].
    rewrite (label_determines_row l r r' Hnd Hr (Hincl _ Hr') (eq_sym He)).
    exact Hr'.
  - intros H. now apply in_map.
Qed.

Ltac to_props :=
  repeat match goal with
         | H : _ && _ = true |- _ => apply andb_true_iff in H; destruct H
         | H : Qle_bool _ _ = true |- _ => apply Qle_bool_iff in H
         | H : Qltb _ _ = true |- _ => apply Qltb_lt in H
         end.

Lemma in_quarter_unique mx my q q' b :
  well_formed b ->
  in_quarter mx my q b = true -> in_quarter mx my q' b = true -> q = q'.
Proof.
  intros [Hx Hy] H H'.
  destruct q, q'; try reflexivity; simpl in H, H'; to_props;
    exfalso; lra.
Qed.

Lemma part_raw_incl l q : incl (part_raw l q) l.
Proof. intros r Hr. unfold part_raw in Hr. now apply filter_In in Hr. Qed.

Lemma part_incl d l q : incl (part cfg d l q) l.
Proof.
  intros r Hr. unfold part in Hr. apply filter_In in Hr.
  destruct Hr as [Hr _]. now apply part_raw_incl in Hr.
Qed.

(** The rows of a part: those of the quarter that are not small shapes of
    its border. *)
Lemma part_spec d l q r :
  NoDup (labels l) ->
  (In r (part cfg d l q) <->
   In r l /\
   in_quarter (mean_x l) (mean_y l) q (bounds (geom r)) = true /\
   (in_border (mean_x l) (mean_y l) d q (bounds (geom r)) &&
    Qltb (area (geom r)) (area_lim cfg) = false)).
Proof.
  intros Hnd. unfold part.
  set (excl := filter (fun r => Qltb (area (geom r)) (area_lim cfg))
                      (part_border d l q)).
  assert (Hincl : incl excl l).
  { intros t Ht. unfold excl in Ht. apply filter_In in Ht.
    destruct Ht as [Ht _]. unfold part_border in Ht.
    apply filter_In in Ht. destruct Ht as [Ht _].
    now apply part_raw_incl in Ht. }
  assert (Hexcl : forall t, In t excl <->
            In t l /\
            in_quarter (mean_x l) (mean_y l) q (bounds (geom t)) = true /\
            in_border (mean_x l) (mean_y l) d q (bounds (geom t)) = true /\
            Qltb (area (geom t)) (area_lim cfg) = true).
  { intros t. unfold excl, part_border, part_raw.
    rewrite !filter_In. tauto. }
  rewrite filter_In. unfold part_raw at 1. rewrite filter_In.
  split.
  - intros [[Hr Hq] Hn]. split; [exact Hr|]. split; [exact Hq|].
    apply negb_true_iff in Hn.
    destruct (in_border _ _ _ _ _ && Qltb _ _) eqn:Hb; [|reflexivity].
    apply andb_true_iff in Hb. destruct Hb as [Hb Ha].
    assert (Hin : In r excl) by (apply Hexcl; auto).
    apply (isin_labels l excl r Hnd Hincl Hr) in Hin. congruence.
  - intros [Hr [Hq Hb]]. split; [split; assumption|].
    apply negb_true_iff.
    destruct (isin (idx r) (labels excl)) eqn:Hi; [|reflexivity].
    apply (isin_labels l excl r Hnd Hincl Hr) in Hi.
    apply Hexcl in Hi. destruct Hi as [_ [_ [Hb' Ha]]].
    rewrite Hb', Ha in Hb. discriminate.
Qed.

(** The excluded shapes: the rows of the input that are in no part. *)
Lemma excluded_spec d l r :
  NoDup (labels l) ->
  (In r (excluded_shps cfg d l) <->
   In r l /\ forall q, ~ In r (part cfg d l q)).
Proof.
  intros Hnd. unfold excluded_shps. rewrite filter_In.
  split.
  - intros [Hr Hn]. split; [exact Hr|]. intros q Hq.
    apply negb_true_iff in Hn.
    assert (Hi : isin (idx r) (indexes_in_parts cfg d l) = true).
    { apply isin_spec. unfold indexes_in_parts. apply in_flat_map.
      exists q. split; [destruct q; simpl; tauto|].
      unfold labels. now apply in_map. }
    congruence.
  - intros [Hr Hn]. split; [exact Hr|]. apply negb_true_iff.
    destruct (isin (idx r) (indexes_in_parts cfg d l)) eqn:Hi;
      [|reflexivity].
    exfalso. apply isin_spec in Hi. unfold indexes_in_parts in Hi.
    apply in_flat_map in Hi. destruct Hi as [q [_ Hi]].
    apply isin_spec in Hi.
    apply (isin_labels l (part cfg d l q) r Hnd (part_incl d l q) Hr)
      in Hi.
    exact (Hn q Hi).
Qed.

(** C4.  For a frame with distinct index labels, a feature is either in
    exactly one of the four parts or among the excluded shapes, never both.
    A feature whose bounds lie in no quarter (they reach across a midline)
    is excluded whatever its area.  A feature of a quarter is in that
    quarter's part when its area is not below [area_lim], and also when it
    is closer than [dist_lim] to neither midline; it is excluded when its
    area is below [area_lim] and it is closer than [dist_lim] to both
    midlines.  The excluded shapes enter the final call as they came in,
    behind the simplified parts. *)
Theorem parts_and_excluded d gdf_in r
  (Hnd : NoDup (labels (rows gdf_in)))
  (Hwf : well_formed (bounds (geom r)))
  (Hr : In r (rows gdf_in)) :
  let l := rows gdf_in in
  let b := bounds (geom r) in
  let mx := mean_x l in
  let my := mean_y l in
  (In r (excluded_shps cfg d l) <-> forall q, ~ In r (part cfg d l q)) /\
  (forall q q', In r (part cfg d l q) -> In r (part cfg d l q') -> q = q') /\
  ((forall q, in_quarter mx my q b = false) ->
   In r (excluded_shps cfg d l)) /\
  (forall q, in_quarter mx my q b = true ->
             (area_lim cfg <= area (geom r))%Q ->
             In r (part cfg d l q)) /\
  (forall q, in_quarter mx my q b = true ->
             near_midline_y my d q b = false ->
             near_midline_x mx d q b = false ->
             In r (part cfg d l q)) /\
  (forall q, in_quarter mx my q b = true ->
             (area (geom r) < area_lim cfg)%Q ->
             near_midline_y my d q b = true ->
             near_midline_x mx d q b = true ->
             In r (excluded_shps cfg d l)) /\
  (forall fuel ps,
     simplify_parts cfg fuel (frame_crs gdf_in)
                    (map (part cfg d l) quarters) = Some (Ok ps) ->
     simplify_shps_mp cfg fuel d gdf_in =
       simplify_shps cfg fuel
         (mkFrame (frame_crs gdf_in)
                  (reset_index (concat ps ++ excluded_shps cfg d l)))).
Proof.
  cbv zeta.
  assert (Hq1 : forall q q',
            In r (part cfg d (rows gdf_in) q) ->
            In r (part cfg d (rows gdf_in) q') -> q = q').
  { intros q q' H H'. apply (part_spec d _ _ _ Hnd) in H, H'.
    destruct H as [_ [H _]], H' as [_ [H' _]].
    exact (in_quarter_unique _ _ _ _ _ Hwf H H'). }
  split; [|split; [exact Hq1|split; [|split; [|split; [|split]]]]].
  - rewrite (excluded_spec d _ _ Hnd). tauto.
  - intros Hno. apply (excluded_spec d _ _ Hnd). split; [exact Hr|].
    intros q Hq. apply (part_spec d _ _ _ Hnd) in Hq.
    destruct Hq as [_ [Hq _]]. rewrite Hno in Hq. discriminate.
  - intros q Hq Ha. apply (part_spec d _ _ _ Hnd).
    split; [exact Hr|]. split; [exact Hq|].
    apply andb_false_iff. right. now apply Qltb_ge.
  - intros q Hq Hy Hx. apply (part_spec d _ _ _ Hnd).
    split; [exact Hr|]. split; [exact Hq|].
    unfold in_border. rewrite Hy. reflexivity.
  - intros q Hq Ha Hy Hx. apply (excluded_spec d _ _ Hnd).
    split; [exact Hr|]. intros q' Hq'.
    assert (Hin := Hq'). apply (part_spec d _ _ _ Hnd) in Hq'.
    destruct Hq' as [_ [Hq' Hb]].
    assert (q = q') by exact (in_quarter_unique _ _ _ _ _ Hwf Hq Hq').
    subst q'. unfold in_border in Hb. rewrite Hy, Hx in Hb.
    apply Qltb_lt in Ha. rewrite Ha in Hb. discriminate.
  - intros fuel ps Hps. unfold simplify_shps_mp. rewrite Hps.
    reflexivity.
Qed.

(** ** Grouping rows of distinct keys *)

Lemma insert_group_past r pre gs :
  (forall h, In h pre -> dis_key cfg h <> dis_key cfg r) ->
  insert_group cfg r (map single pre ++ gs)
  = map single pre ++ insert_group cfg r gs.
Proof.
  induction pre as [|h pre IH]; intro H; [reflexivity|].
  cbn [map app insert_group single].
  destruct (values_eqb (dis_key cfg h) (dis_key cfg r)) eqn:He.
  - apply values_eqb_eq in He. exfalso. apply (H h); [now left | exact He].
  - f_equal. apply IH. intros h' Hh'. apply H. now right.
Qed.

Lemma groups_distinct_from l pre :
  NoDup (map (dis_key cfg) (pre ++ l)) ->
  fold_left (fun gs r => insert_group cfg r gs) l (map single pre)
  = map single (pre ++ l).
Proof.
  revert pre. induction l as [|x l IH]; intros pre H.
  - now rewrite app_nil_r.
  - cbn [fold_left].
    rewrite <- (app_nil_r (map single pre)).
    rewrite insert_group_past.
    + cbn [insert_group]. change [[x]] with (map single [x]).
      rewrite <- map_app, IH; rewrite <- app_assoc; [reflexivity | exact H].
    + intros h Hh He. rewrite map_app in H. cbn [map] in H.
      apply NoDup_remove_2 in H. apply H. apply in_or_app. left.
      rewrite <- He. now apply in_map.
Qed.

Lemma reindex_from_app k (a b : list row) :
  reindex_from k (a ++ b)
  = reindex_from k a ++ reindex_from (k + length a) b.
Proof.
  revert k. induction a as [|r a IH]; intro k; cbn [app reindex_from length].
  - now rewrite Nat.add_0_r.
  - rewrite IH. do 3 f_equal. lia.
Qed.

Lemma reindex_from_seq (f : nat -> row) k n :
  (forall i, set_idx i (f i) = f i) ->
  reindex_from k (map f (seq k n)) = map f (seq k n).
Proof.
  intros Hf. revert k. induction n as [|n IH]; intro k; [reflexivity|].
  cbn [seq map reindex_from]. now rewrite Hf, IH.
Qed.

Lemma explode_polygons (l : list row) :
  Forall single_part l -> flat_map explode_row l = l.
Proof.
  induction 1 as [|r l Hr _ IH]; [reflexivity|].
  cbn [flat_map]. rewrite IH. unfold explode_row.
  unfold single_part in Hr. destruct (geom r); [reflexivity|discriminate].
Qed.

End SimplifyFacts.

(** ** The stable sort honours [sort_law] *)
Module StableSortFacts.
Import StableSort.

Lemma insert_by_value_perm x l : Permutation (insert_by_value x l) (x :: l).
Proof.
  induction l as [|y l IH]; simpl; [apply Permutation_refl|].
  destruct (Qltb (snd x) (snd y)); [apply Permutation_refl|].
  eapply Permutation_trans; [apply perm_skip, IH | apply perm_swap].
Qed.

Lemma sort_pairs_perm_from l acc :
  Permutation (fold_left (fun acc x => insert_by_value x acc) l acc)
              (acc ++ l).
Proof.
  revert acc. induction l as [|x l IH]; intro acc; simpl.
  - rewrite app_nil_r. apply Permutation_refl.
  - eapply Permutation_trans; [apply IH|].
    eapply Permutation_trans;
      [apply Permutation_app_tail, insert_by_value_perm|].
    simpl. apply Permutation_middle.
Qed.

Lemma sort_pairs_perm l : Permutation (sort_pairs l) l.
Proof. exact (sort_pairs_perm_from l []). Qed.

Lemma map_fst_combine {A B} (a : list A) (b : list B) :
  length a = length b -> map fst (combine a b) = a.
Proof.
  revert b. induction a as [|x a IH]; intros [|y b] H; simpl in *;
    try reflexivity; try discriminate.
  f_equal. apply IH. lia.
Qed.

Lemma argsort_perm l : Permutation (argsort l) (seq 0 (length l)).
Proof.
  unfold argsort.
  eapply Permutation_trans; [apply Permutation_map, sort_pairs_perm|].
  rewrite map_fst_combine by (now rewrite length_seq).
  apply Permutation_refl.
Qed.

Lemma insert_by_value_sorted x l :
  StronglySorted by_value l -> StronglySorted by_value (insert_by_value x l).
Proof.
  induction 1 as [|y l Hs IH Hy]; simpl.
  - repeat constructor.
  - destruct (Qltb (snd x) (snd y)) eqn:Hlt.
    + apply Qltb_lt in Hlt. constructor; [constructor; assumption|].
      constructor; [apply Qlt_le_weak, Hlt|].
      eapply Forall_impl; [|exact Hy]. intros e He. unfold by_value in *.
      eapply Qle_trans; [apply Qlt_le_weak, Hlt | exact He].
    + apply Qltb_ge in Hlt. constructor; [exact IH|].
      apply Forall_forall. intros e He.
      apply (Permutation_in _ (insert_by_value_perm x l)) in He.
      destruct He as [<-|He]; [exact Hlt|].
      rewrite Forall_forall in Hy. now apply Hy.
Qed.

Lemma sort_pairs_sorted l : StronglySorted by_value (sort_pairs l).
Proof.
  unfold sort_pairs.
  assert (H : StronglySorted by_value []) by constructor.
  revert H. generalize (@nil (nat * Q)) as acc.
  induction l as [|x l IH]; intros acc H; simpl; [exact H|].
  apply IH. now apply insert_by_value_sorted.
Qed.

Lemma combine_seq_values (l : list Q) k e :
  In e (combine (seq k (length l)) l) ->
  k <= fst e /\ nth (fst e - k) l 0%Q = snd e.
Proof.
  revert k. induction l as [|v l IH]; intro k; simpl; [contradiction|].
  intros [<-|He]; simpl.
  - rewrite Nat.sub_diag. split; [lia | reflexivity].
  - apply IH in He. destruct He as [Hk Hn]. split; [lia|].
    replace (fst e - k) with (S (fst e - S k)) by lia. exact Hn.
Qed.

Lemma sorted_map_snd (l : list (nat * Q)) :
  StronglySorted by_value l -> StronglySorted Qle (map snd l).
Proof.
  induction 1 as [|x l _ IH Hx]; simpl; constructor; [exact IH|].
  rewrite Forall_map. exact Hx.
Qed.

Lemma argsort_sorted l :
  StronglySorted Qle (map (fun i => nth i l 0%Q) (argsort l)).
Proof.
  unfold argsort. rewrite map_map.
  rewrite (map_ext_in _ snd).
  - apply sorted_map_snd, sort_pairs_sorted.
  - intros e He. apply (Permutation_in _ (sort_pairs_perm _)) in He.
    apply combine_seq_values in He. destruct He as [_ He].
    now rewrite Nat.sub_0_r in He.
Qed.

(** Equal values keep their order. *)
Lemma insert_by_value_last x l :
  (forall y, In y l -> (snd y <= snd x)%Q) ->
  insert_by_value x l = l ++ [x].
Proof.
  induction l as [|y l IH]; intro H; simpl; [reflexivity|].
  assert (Hy : Qltb (snd x) (snd y) = false).
  { apply Qltb_ge. apply H. now left. }
  rewrite Hy. f_equal. apply IH. intros z Hz. apply H. now right.
Qed.

Lemma sort_pairs_ascending_from l acc :
  StronglySorted by_value (acc ++ l) ->
  fold_left (fun acc x => insert_by_value x acc) l acc = acc ++ l.
Proof.
  revert acc. induction l as [|x l IH]; intros acc H; simpl.
  - now rewrite app_nil_r.
  - assert (Hins : insert_by_value x acc = acc ++ [x]).
    { apply insert_by_value_last. intros y Hy.
      clear IH. induction acc as [|a acc IHa]; [contradiction|].
      simpl in H. inversion H as [|? ? Hs Hf]; subst.
      destruct Hy as [<-|Hy].
      - rewrite Forall_forall in Hf. apply Hf.
        apply in_or_app. right. now left.
      - now apply IHa. }
    rewrite Hins. rewrite IH; rewrite <- app_assoc; [reflexivity|exact H].
Qed.

(** Values already in ascending order are left where they are. *)
Lemma argsort_ascending l :
  StronglySorted Qle l -> argsort l = seq 0 (length l).
Proof.
  intros H. unfold argsort, sort_pairs.
  rewrite sort_pairs_ascending_from.
  - simpl. apply map_fst_combine. now rewrite length_seq.
  - simpl. generalize 0 as k. induction H as [|v l _ IH Hv]; intro k; simpl.
    + constructor.
    + constructor; [apply IH|]. apply Forall_forall. intros [i q] He.
      apply in_combine_r in He. rewrite Forall_forall in Hv.
      unfold by_value. simpl. now apply Hv.
Qed.

End StableSortFacts.

(** ** The one-dimensional engine: its laws, and a chain that needs as many
    passes as it has slivers *)
Module IntervalFacts.
Import Interval.

Lemma insert_iv_length a l : length (insert_iv a l) <= S (length l).
Proof.
  revert a. induction l as [|b l IH]; intro a; cbn [insert_iv length].
  - lia.
  - destruct (snd a <? fst b)%Z; [cbn [length]; lia|].
    destruct (snd b <? fst a)%Z.
    + cbn [length]. specialize (IH a). lia.
    + specialize (IH (Z.min (fst a) (fst b), Z.max (snd a) (snd b))). lia.
Qed.

Lemma interval_union_law : union_law.
Proof.
  intros l. change (@length iv (iv_union l) <= @length iv l).
  unfold iv_union.
  induction l as [|a l IH]; cbn [fold_right length]; [lia|].
  pose proof (insert_iv_length a (fold_right insert_iv [] l)). lia.
Qed.

Lemma interval_sort_law : sort_law.
Proof.
  split.
  - exact StableSortFacts.argsort_perm.
  - exact StableSortFacts.argsort_sorted.
Qed.

Ltac z_cases :=
  repeat match goal with
         | |- context [Z.eqb ?a ?b] => destruct (Z.eqb_spec a b)
         | |- context [Z.leb ?a ?b] => destruct (Z.leb_spec a b)
         | |- context [Z.ltb ?a ?b] => destruct (Z.ltb_spec a b)
         | |- context [Nat.eqb ?a ?b] => destruct (Nat.eqb_spec a b)
         | |- context [Nat.ltb ?a ?b] => destruct (Nat.ltb_spec a b)
         | |- context [Nat.leb ?a ?b] => destruct (Nat.leb_spec a b)
         end.

Lemma corner_S n : corner (S n) = (corner n + Z.of_nat n + 1)%Z.
Proof. cbn [corner]. lia. Qed.

Lemma corner_lt a b : a < b -> (corner a < corner b)%Z.
Proof.
  induction 1 as [|b _ IH].
  - rewrite corner_S. lia.
  - rewrite (corner_S b). lia.
Qed.

Lemma corner_le a b : a <= b -> (corner a <= corner b)%Z.
Proof.
  intros H. destruct (Nat.eq_dec a b) as [->|Hne]; [lia|].
  apply Z.lt_le_incl, corner_lt. lia.
Qed.

Lemma corner_leb a b : (corner a <=? corner b)%Z = (a <=? b).
Proof.
  destruct (Nat.leb_spec a b) as [H|H].
  - apply Z.leb_le. now apply corner_le.
  - apply Z.leb_gt. now apply corner_lt.
Qed.

Lemma corner_eqb a b : (corner a =? corner b)%Z = (a =? b).
Proof.
  destruct (Nat.eqb_spec a b) as [->|H].
  - apply Z.eqb_refl.
  - apply Z.eqb_neq. destruct (Nat.lt_ge_cases a b) as [Hlt|Hge].
    + apply corner_lt in Hlt. lia.
    + assert (Hlt : b < a) by lia. apply corner_lt in Hlt. lia.
Qed.

Lemma candidate_of_row m j i lo hi c chg :
  (lo <= hi)%Z ->
  candidate_of m j (mkRow i (Polygon ((lo, hi) : poly)) [VNum c] [] chg) =
    (lo <=? corner (S j))%Z && (corner j <=? hi)%Z &&
    negb (c =? Z.of_nat (m - j))%Z.
Proof.
  intros Hwf. pose proof (corner_le j (S j)) as Hj.
  unfold candidate_of, touches, intersects.
  cbn [geom cat sliver get_parts existsb cat_differs value_eqb
       poly_touches poly_intersects engine].
  unfold iv_touches, iv_intersects. cbn [fst snd].
  rewrite !orb_false_r.
  z_cases; cbn [andb orb negb]; try reflexivity; lia.
Qed.

Section Chain.
Variable lim : Z.

Lemma neighbours_at m right j :
  j < m -> (corner m <= right)%Z ->
  valid_neighbors (limit lim) (scanned_to m right j) (sliver m j) =
    if S j <? m then [sliver m (S j)] else [block m right].
Proof.
  intros Hj HR. unfold valid_neighbors, touching.
  cbn [keep_cols limit plain].
  rewrite filter_filter. fold (candidate_of m j).
  unfold scanned_to. rewrite filter_app.
  rewrite (filter_map_seq_only _ _ (S j)).
  - cbn [filter]. unfold block. rewrite candidate_of_row by exact HR.
    rewrite corner_leb.
    assert (Hjr : (corner j <=? right)%Z = true).
    { apply Z.leb_le. pose proof (corner_le j m). lia. }
    rewrite Hjr. unfold sliver.
    z_cases; cbn [andb negb app]; try reflexivity; lia.
  - intros i Hi. destruct (Nat.ltb_spec i j).
    + unfold taken.
      rewrite candidate_of_row by (apply corner_le; lia).
      rewrite !corner_leb.
      z_cases; cbn [andb negb]; try reflexivity; lia.
    + unfold sliver.
      rewrite candidate_of_row by (apply corner_le; lia).
      rewrite !corner_leb.
      z_cases; cbn [andb negb]; try reflexivity; lia.
Qed.

Lemma replace_at m right j :
  j < m ->
  replace_cat (scanned_to m right j) j [VNum (Z.of_nat (m - j - 1))]
  = scanned_to m right (S j).
Proof.
  intros Hj. unfold replace_cat, scanned_to.
  rewrite map_app, map_map. f_equal.
  - apply map_ext_in. intros i Hi. apply in_seq in Hi.
    destruct (Nat.ltb_spec i j), (Nat.ltb_spec i (S j)); try lia;
      cbn [idx taken sliver]; destruct (Nat.eqb_spec i j); try lia;
      try reflexivity.
    subst i. reflexivity.
  - cbn [map idx block]. destruct (Nat.eqb_spec m j); [lia|reflexivity].
Qed.

Lemma resolve_at m right j :
  j < m -> (corner m <= right)%Z ->
  resolve (limit lim) tt (scanned_to m right j) (sliver m j)
  = Ok (scanned_to m right (S j)).
Proof.
  intros Hj HR. unfold resolve. rewrite neighbours_at by assumption.
  destruct (Nat.ltb_spec (S j) m) as [Hlt|Hge].
  - cbn [refresh existsb changed sliver orb select comp_raster limit plain
         bind fst snd idx loc find cat].
    rewrite Nat.eqb_refl.
    change (cat (sliver m (S j))) with [VNum (Z.of_nat (m - S j))].
    replace (m - S j) with (m - j - 1) by lia.
    f_equal. now apply replace_at.
  - cbn [refresh existsb changed block orb select comp_raster limit plain
         bind fst snd idx loc find cat sliver].
    rewrite Nat.eqb_refl.
    change (cat (block m right)) with [VNum 0].
    replace 0%Z with (Z.of_nat (m - j - 1)) by lia.
    f_equal. now apply replace_at.
Qed.

Lemma scan_from m right n j :
  j + n = m -> (corner m <= right)%Z ->
  scan (limit lim) tt (scanned_to m right j) (map (sliver m) (seq j n))
  = Ok (scanned_to m right m).
Proof.
  revert j. induction n as [|n IH]; intros j Hm HR.
  - cbn [seq map scan]. replace j with m by lia. reflexivity.
  - cbn [seq map scan]. rewrite resolve_at by (assumption || lia).
    cbn [bind]. apply IH; [lia | assumption].
Qed.

Lemma scanned_all m right :
  scanned_to m right m = map (taken m) (seq 0 m) ++ [block m right].
Proof.
  unfold scanned_to. f_equal. apply map_ext_in. intros i Hi.
  apply in_seq in Hi. destruct (Nat.ltb_spec i m); [reflexivity | lia].
Qed.

Lemma taken_keys_distinct m n :
  n <= m ->
  NoDup (map (dis_key (limit lim)) (map (taken m) (seq 0 n))).
Proof.
  intros Hn. rewrite map_map.
  apply NoDup_map_NoDup_ForallPairs; [|apply seq_NoDup].
  intros i j Hi Hj He. apply in_seq in Hi, Hj.
  unfold dis_key, taken in He. cbn [keep_cols limit plain cat] in He.
  injection He as He. lia.
Qed.

Lemma groups_scanned m right :
  groups (limit lim)
         (map (taken (S m)) (seq 0 (S m)) ++ [block (S m) right])
  = map single (map (taken (S m)) (seq 0 m))
    ++ [[taken (S m) m; block (S m) right]].
Proof.
  unfold groups. rewrite seq_S, map_app, <- app_assoc.
  rewrite fold_left_app.
  change (@nil (list row)) with (map single (@nil row)).
  rewrite groups_distinct_from
    by (cbn [app]; apply taken_keys_distinct; lia).
  cbn [app map fold_left Nat.add].
  assert (Hpast : forall h, In h (map (taken (S m)) (seq 0 m)) ->
            dis_key (limit lim) h <> [VNum 0]).
  { intros h Hh. apply in_map_iff in Hh. destruct Hh as [i [<- Hi]].
    apply in_seq in Hi. unfold dis_key, taken.
    cbn [keep_cols limit plain cat].
    intros He. injection He as He. destruct i; lia. }
  assert (Hlast : dis_key (limit lim) (taken (S m) m) = [VNum 0]).
  { unfold dis_key, taken. cbn [keep_cols limit plain cat].
    replace (S m - m - 1) with 0 by lia. reflexivity. }
  rewrite <- (app_nil_r (map single (map (taken (S m)) (seq 0 m)))) at 1.
  rewrite insert_group_past by (rewrite Hlast; exact Hpast).
  cbn [insert_group].
  rewrite insert_group_past by exact Hpast.
  cbn [insert_group]. rewrite Hlast. reflexivity.
Qed.

Lemma dissolve_singles m n :
  flat_map dissolve_group (map single (map (taken m) (seq 0 n)))
  = map (taken m) (seq 0 n).
Proof.
  generalize 0 as k. induction n as [|n IH]; intro k; [reflexivity|].
  cbn [seq map flat_map]. rewrite IH. reflexivity.
Qed.

Lemma dissolve_last m right :
  (corner (S m) <= right)%Z ->
  dissolve_group [taken (S m) m; block (S m) right] = [joined m right].
Proof.
  intros HR. pose proof (corner_le m (S m)) as Hm.
  unfold dissolve_group, joined, taken, block, set_geom.
  cbn [map geom idx cat keep changed].
  replace (S m - m - 1) with 0 by lia.
  unfold unary_union. cbn [flat_map get_parts app union_parts engine].
  unfold iv_union. cbn [fold_right insert_iv fst snd].
  destruct (Z.ltb_spec (corner (S m)) (corner (S m))); [lia|].
  destruct (Z.ltb_spec right (corner m)); [lia|].
  rewrite Z.min_l, Z.max_r by lia. reflexivity.
Qed.

Lemma dissolve_explode_scanned m right :
  (corner (S m) <= right)%Z ->
  explode (dissolve (limit lim) (scanned_to (S m) right (S m)))
  = map (taken (S m)) (seq 0 m) ++ [joined m right].
Proof.
  intros HR.
  assert (Hd : dissolve (limit lim) (scanned_to (S m) right (S m))
               = map (taken (S m)) (seq 0 m) ++ [joined m right]).
  { unfold dissolve. rewrite scanned_all, groups_scanned.
    rewrite flat_map_app, dissolve_singles. cbn [flat_map].
    rewrite dissolve_last, app_nil_r by exact HR.
    unfold reset_index. rewrite reindex_from_app.
    rewrite reindex_from_seq by reflexivity.
    rewrite length_map, length_seq. reflexivity. }
  rewrite Hd. unfold explode. rewrite explode_polygons.
  - unfold reset_index. rewrite reindex_from_app.
    rewrite reindex_from_seq by reflexivity.
    rewrite length_map, length_seq. reflexivity.
  - apply Forall_app. split.
    + apply Forall_forall. intros r Hr. apply in_map_iff in Hr.
      destruct Hr as [i [<- _]]. reflexivity.
    + repeat constructor.
Qed.

Lemma clear_flags m right :
  map (set_changed false) (map (taken (S m)) (seq 0 m) ++ [joined m right])
  = chain m right.
Proof.
  unfold chain, slivers. rewrite map_app, map_map. f_equal.
  apply map_ext_in. intros i Hi. apply in_seq in Hi.
  unfold set_changed, taken, sliver. cbn [idx geom cat keep].
  replace (S m - i - 1) with (m - i) by lia. reflexivity.
Qed.

Lemma interval_area lo hi :
  area (Polygon ((lo, hi) : poly)) = (inject_Z (hi - lo) + 0)%Q.
Proof. reflexivity. Qed.

Lemma interval_small lo hi :
  Qltb (area_epsg31467 tt (Polygon ((lo, hi) : poly))) (inject_Z lim)
  = (hi - lo <? lim)%Z.
Proof.
  unfold area_epsg31467. cbn [get_parts map Qsum fold_right area_31467 engine].
  unfold iv_area. cbn [fst snd].
  destruct (Z.ltb_spec (hi - lo) lim) as [H|H].
  - apply Qltb_lt. unfold Qlt. cbn. lia.
  - apply Qltb_ge. unfold Qle. cbn. lia.
Qed.

Lemma small_chain m right :
  (Z.of_nat m < lim)%Z -> (corner m + lim <= right)%Z ->
  filter (fun r => Qltb (area_epsg31467 tt (geom r)) (inject_Z lim))
         (chain m right)
  = slivers m.
Proof.
  intros Hm HR. unfold chain. rewrite filter_app. cbn [filter block geom].
  rewrite interval_small.
  destruct (Z.ltb_spec (right - corner m) lim); [lia|].
  rewrite app_nil_r. apply forallb_filter_id. apply forallb_forall.
  intros r Hr. unfold slivers in Hr. apply in_map_iff in Hr.
  destruct Hr as [i [<- Hi]]. apply in_seq in Hi.
  cbn [sliver geom]. rewrite interval_small.
  apply Z.ltb_lt. rewrite corner_S. lia.
Qed.

Lemma sliver_area m i :
  (area (geom (sliver m i)) == inject_Z (Z.of_nat i + 1))%Q.
Proof.
  cbn [sliver geom]. rewrite interval_area, corner_S.
  replace (corner i + Z.of_nat i + 1 - corner i)%Z
    with (Z.of_nat i + 1)%Z by lia.
  apply Qplus_0_r.
Qed.

Lemma slivers_ascending m k n :
  StronglySorted Qle
    (map (fun r => area (geom r)) (map (sliver m) (seq k n))).
Proof.
  revert k. induction n as [|n IH]; intro k; cbn [seq map]; constructor.
  - apply IH.
  - apply Forall_forall. intros v Hv. apply in_map_iff in Hv.
    destruct Hv as [r [<- Hr]]. apply in_map_iff in Hr.
    destruct Hr as [i [<- Hi]]. apply in_seq in Hi.
    rewrite !sliver_area. rewrite <- Zle_Qle. lia.
Qed.

(** The lengths of the slivers grow along the chain, no two are equal: the
    sort leaves the slivers in their order. *)
Lemma sort_slivers m : sort_by_area (slivers m) = slivers m.
Proof.
  unfold sort_by_area. cbn [argsort engine].
  rewrite StableSortFacts.argsort_ascending.
  - rewrite length_map. apply take_rows_seq.
  - apply slivers_ascending.
Qed.

Lemma undersized_chain m right :
  (Z.of_nat m < lim)%Z -> (corner m + lim <= right)%Z ->
  undersized (limit lim) (Some tt) (chain m right) = Ok (slivers m).
Proof.
  intros Hm HR. unfold undersized, small_mask.
  cbn [bind area_lim limit plain].
  now rewrite small_chain, sort_slivers.
Qed.

Lemma scanned_start m right : scanned_to m right 0 = chain m right.
Proof. reflexivity. Qed.

(** A pass on the chain of [m + 1] slivers leaves the chain of [m]. *)
Lemma pass_chain m right lb la :
  (Z.of_nat (S m) < lim)%Z -> (corner (S m) + lim <= right)%Z ->
  pass (limit lim) tt (chain_state (S m) right lb la)
  = Ok (chain_state m right (S (S m)) (S m)).
Proof.
  intros Hm HR. pose proof (corner_le m (S m)) as Hc.
  assert (0 <= lim)%Z by lia.
  unfold pass, chain_state.
  cbn [gdf_out mask_shps_small].
  rewrite <- scanned_start. unfold slivers at 1.
  rewrite scan_from by lia. cbn [bind].
  rewrite dissolve_explode_scanned by lia.
  rewrite clear_flags, undersized_chain by lia. cbn [bind].
  unfold scanned_to. rewrite !length_app, !length_map, !length_seq.
  cbn [length]. repeat f_equal; lia.
Qed.

Lemma loop_cond_chain m right lb la :
  lb <> la -> loop_cond (chain_state (S m) right lb la) = true.
Proof.
  intros H. unfold loop_cond, chain_state, slivers.
  cbn [mask_shps_small len_before len_after].
  rewrite length_map, length_seq.
  apply andb_true_iff. split.
  - apply Nat.ltb_lt. lia.
  - apply negb_true_iff, Nat.eqb_neq. exact H.
Qed.

(** A chain of more slivers than there is fuel is not done with. *)
Lemma chain_out_of_fuel fuel m right lb la :
  fuel < m -> lb <> la ->
  (Z.of_nat m < lim)%Z -> (corner m + lim <= right)%Z ->
  simplify_loop (limit lim) fuel tt (chain_state m right lb la) = None.
Proof.
  revert m lb la.
  induction fuel as [|fuel IH]; intros m lb la Hm Hne Hl HR.
  - destruct m as [|m]; [lia|]. cbn [simplify_loop].
    now rewrite loop_cond_chain.
  - destruct m as [|m]; [lia|]. cbn [simplify_loop].
    rewrite loop_cond_chain by exact Hne.
    rewrite pass_chain by lia.
    pose proof (corner_le m (S m)).
    apply IH; lia.
Qed.

Lemma prepare_chain m right : prepare (chain m right) = chain m right.
Proof.
  unfold prepare, explode, reset_index, chain, slivers.
  rewrite reindex_from_app, reindex_from_seq by reflexivity.
  rewrite length_map, length_seq. cbn [reindex_from Nat.add].
  rewrite explode_polygons.
  - rewrite reindex_from_app, reindex_from_seq by reflexivity.
    rewrite length_map, length_seq. cbn [reindex_from Nat.add].
    rewrite map_app, map_map. reflexivity.
  - apply Forall_app. split.
    + apply Forall_forall. intros r Hr. apply in_map_iff in Hr.
      destruct Hr as [i [<- _]]. reflexivity.
    + repeat constructor.
Qed.

Lemma init_chain m right :
  (Z.of_nat m < lim)%Z -> (corner m + lim <= right)%Z ->
  init_state (limit lim) (layer (chain m right))
  = Ok (chain_state m right 3 2).
Proof.
  intros Hm HR. unfold init_state, layer. cbn [rows frame_crs].
  rewrite prepare_chain, undersized_chain by assumption. cbn [bind].
  unfold chain_state. f_equal. f_equal.
  unfold chain, slivers. rewrite map_app, map_map. reflexivity.
Qed.

End Chain.

(** The chain of [n + 1] slivers is not done after [n] passes. *)
Lemma chain_not_done n :
  let lim := Z.of_nat (S (S n)) in
  simplify_shps (limit lim) n (layer (chain (S n) (corner (S n) + lim)))
  = None.
Proof.
  cbv zeta. unfold simplify_shps. rewrite init_chain by lia.
  cbn [layer frame_crs].
  rewrite chain_out_of_fuel; [reflexivity | lia | discriminate | lia | lia].
Qed.

End IntervalFacts.

(** ** Deleting a layer *)
Module FilesFacts.
Import Files.

Lemma chars_eqb_eq a b : chars_eqb a b = true <-> a = b.
Proof.
  revert b. induction a as [|x a IH]; intros [|y b]; simpl;
    split; intro H; try discriminate; try reflexivity.
  - apply andb_true_iff in H. destruct H as [H1 H2].
    apply Ascii.eqb_eq in H1. apply IH in H2. now subst.
  - injection H as -> ->. apply andb_true_iff. split.
    + apply Ascii.eqb_refl.
    + now apply IH.
Qed.


(** A path that is no [.shp] makes [del_shp] raise with the tree as it
    was. *)
Lemma del_shp_other fs fp :
  suffix fp <> chars ".shp" -> del_shp fs fp = (fs, Raise Warning).
Proof.
  intros H. unfold del_shp.
  destruct (chars_eqb (suffix fp) (chars ".shp")) eqn:He; [|reflexivity].
  apply chars_eqb_eq in He. contradiction.
Qed.









(** C9.  [del_shp] on the shelf, asked for the layer [a[b].shp]: the call
    returns, both files of that layer are still there, and a file of the
    layer [ab] is gone.  Asked for [roads.shp] it removes the two files of
    that layer; asked for [roads.prj] it raises and removes nothing. *)
Theorem del_shp_bracket_layer :
  del_shp shelf (mkPath "d" "a[b].shp")
  = ([ mkPath "d" "a[b].shp"; mkPath "d" "a[b].dbf";
       mkPath "d" "roads.shp"; mkPath "d" "roads.prj" ], Ok tt) /\
  del_shp shelf (mkPath "d" "roads.shp")
  = ([ mkPath "d" "a[b].shp"; mkPath "d" "a[b].dbf";
       mkPath "d" "ab.shp" ], Ok tt) /\
  del_shp shelf (mkPath "d" "roads.prj") = (shelf, Raise Warning).
Proof. repeat split; vm_compute; reflexivity. Qed.

End FilesFacts.

(** ** The theorems at work *)
Module Runs.
Import Interval Fixture.

(** The loop on a chain: no sliver left, it returns at once; one sliver
    left, it runs a pass. *)
Lemma simplify_loop_exit_witness :
  simplify_loop cfg2 4 tt (chain_state 0 3 3 2) = Some (Ok (chain 0 3)) /\
  simplify_loop cfg2 1 tt (chain_state 1 4 3 2) =
    match pass cfg2 tt (chain_state 1 4 3 2) with
    | Ok st' => simplify_loop cfg2 0 tt st'
    | Raise e => Some (Raise e)
    end.
Proof.
  split.
  - apply (proj1 (simplify_loop_exit cfg2 4 tt (chain_state 0 3 3 2))).
    left. reflexivity.
  - apply (proj1 (proj2 (simplify_loop_exit cfg2 0 tt
                           (chain_state 1 4 3 2)))).
    intros [H|H]; vm_compute in H; discriminate H.
Defined.



(** The two parts of the sliver come out as part of one Polygon. *)
Lemma simplify_shps_no_multipart_witness :
  exists out,
    simplify_shps cfg2 2 two_part_layer = Some (Ok out) /\
    map geom (rows out) = [Polygon ((0, 6)%Z : poly)] /\
    Forall (fun r => is_Polygon (geom r) = true) (rows out).
Proof.
  destruct (simplify_shps cfg2 2 two_part_layer) as [[out|e]|] eqn:Hr;
    try (vm_compute in Hr; discriminate Hr).
  exists out. split; [reflexivity|]. split.
  - vm_compute in Hr. injection Hr as <-. reflexivity.
  - exact (simplify_shps_no_multipart cfg2 2 two_part_layer out Hr).
Defined.

(** A chain without CRS raises, however much fuel there is. *)
Lemma threshold_in_epsg31467_witness :
  simplify_shps cfg2 7 (mkFrame None (chain 2 4)) = Some (Raise ValueError).
Proof.
  apply (proj2 (proj2 (proj2 (threshold_in_epsg31467 cfg2
                                IntervalFacts.interval_sort_law)))).
  reflexivity.
Defined.

(** Five passes are enough for the chain of three slivers. *)
Lemma simplify_shps_stops_witness :
  exists r, forall fuel,
    S (length (prepare (chain 3 10))) <= fuel ->
    simplify_shps (limit 4) fuel (layer (chain 3 10)) = Some r.
Proof.
  exact (proj1 (simplify_shps_stops (limit 4)
                  IntervalFacts.interval_union_law (layer (chain 3 10)))).
Defined.


(** The square across the midlines is among the excluded shapes. *)
Lemma parts_and_excluded_witness :
  In (square 2) (excluded_shps square_config 1 (rows square_frame)).
Proof.
  assert (Hnd : NoDup (labels (rows square_frame))).
  { vm_compute. repeat constructor; simpl; intuition discriminate. }
  assert (Hwf : well_formed (bounds (geom (square 2)))).
  { split; vm_compute; discriminate. }
  assert (Hr : In (square 2) (rows square_frame)).
  { right. right. left. reflexivity. }
  apply (proj1 (proj2 (proj2 (parts_and_excluded square_config 1
                                square_frame (square 2) Hnd Hwf Hr)))).
  intros q. destruct q; reflexivity.
Defined.

End Runs.

(** ** Where the code and the sentences part *)
Module Departures.
Import Interval Fixture.

(** No number of passes is enough for every input: the chain of [n + 1]
    slivers is not done after [n] passes. *)
Lemma no_pass_ceiling :
  ~ exists ceiling : nat,
      forall (cfg : @config Interval.engine) (gdf_in : frame),
        simplify_shps cfg ceiling gdf_in <> None.
Proof.
  intros [n H].
  apply (H (limit (Z.of_nat (S (S n))))
           (layer (chain (S n) (corner (S n) + Z.of_nat (S (S n)))))).
  exact (IntervalFacts.chain_not_done n).
Qed.

(** C3.  Two neighbours at the same raster distance 1/2 from the sliver,
    the second with the longer shared border: the first one is taken.  At
    the same raster distance 2, which is also the label of the second, the
    tie is seen and the second one is taken. *)
Theorem raster_tie_takes_first :
  let half := tie_frame (21 # 2) (19 # 2) in
  let two := tie_frame 12 8 in
  (Qabs ((21 # 2) - 10) == Qabs ((19 # 2) - 10))%Q /\
  select (tie_config (21 # 2) (19 # 2)) tt (tie_sliver (21 # 2) (19 # 2))
         (valid_neighbors (tie_config (21 # 2) (19 # 2)) half
                          (tie_sliver (21 # 2) (19 # 2)))
  = Ok (1, tl half) /\
  border_policy (tie_sliver (21 # 2) (19 # 2)) (tl half) = Ok 2 /\
  select (tie_config 12 8) tt (tie_sliver 12 8)
         (valid_neighbors (tie_config 12 8) two (tie_sliver 12 8))
  = Ok (2, tl two).
Proof. cbv zeta. repeat split. Qed.


(** The square across the midlines is excluded although its area is
    not below [area_lim], and it is in none of the four parts. *)
Lemma straddling_square_excluded :
  In (square 2) (excluded_shps square_config 1 (rows square_frame)) /\
  ~ (area (geom (square 2)) < area_lim square_config)%Q /\
  (forall q, ~ In (square 2) (part square_config 1 (rows square_frame) q)).
Proof.
  split; [|split].
  - vm_compute. auto.
  - vm_compute. discriminate.
  - intros q H. destruct q; vm_compute in H;
      repeat (destruct H as [H|H]; [discriminate H|]); exact H.
Qed.

End Departures.

(** * Further properties of the simplification *)
Section SimplifyMore.
Context {E : Engine}.
Variable cfg : config.

(** ** The index of the result *)

Lemma reindex_from_labels n l :
  map idx (reindex_from n l) = seq n (length l).
Proof.
  revert n. induction l as [|r l IH]; intro n; [reflexivity|].
  cbn [reindex_from map length seq idx set_idx]. now rewrite IH.
Qed.

Lemma explode_labels l :
  map idx (explode l) = seq 0 (length (explode l)).
Proof.
  unfold explode, reset_index.
  rewrite reindex_from_labels, reindex_from_length. reflexivity.
Qed.

(** Rows numbered 0, 1, 2, ... *)
Lemma renumbered_map (f : row -> row) l :
  (forall r, idx (f r) = idx r) ->
  map idx l = seq 0 (length l) ->
  map idx (map f l) = seq 0 (length (map f l)).
Proof.
  intros Hf H. rewrite map_map, length_map, <- H.
  apply map_ext. exact Hf.
Qed.

Lemma simplify_loop_labels fuel c st out :
  map idx (gdf_out st) = seq 0 (length (gdf_out st)) ->
  simplify_loop cfg fuel c st = Some (Ok out) ->
  map idx out = seq 0 (length out).
Proof.
  revert st. induction fuel as [|fuel IH]; intros st Hst H; simpl in H.
  - destruct (loop_cond st); [discriminate|]. now injection H as <-.
  - destruct (loop_cond st).
    + destruct (pass cfg c st) as [st'|e] eqn:Hp; [|discriminate].
      apply (IH st'); [|exact H].
      apply pass_inv in Hp. destruct Hp as [scanned [_ [-> _]]].
      apply renumbered_map; [reflexivity | apply explode_labels].
    + now injection H as <-.
Qed.

(** X1.  The frame [simplify_shps] returns is indexed 0, 1, 2, ...: the
    labels of the input are lost, whatever they were. *)
Theorem simplify_shps_index_reset fuel gdf_in out :
  simplify_shps cfg fuel gdf_in = Some (Ok out) ->
  map idx (rows out) = seq 0 (length (rows out)).
Proof.
  unfold simplify_shps. intros H.
  destruct (init_state cfg gdf_in) as [st|e] eqn:Hi; [|discriminate].
  destruct (frame_crs gdf_in) as [c|]; [|discriminate].
  destruct (simplify_loop cfg fuel c st) as [[l|e]|] eqn:Hl;
    try discriminate.
  injection H as <-. cbn [rows]. unfold finish.
  apply renumbered_map; [reflexivity|].
  apply (simplify_loop_labels fuel c st); [|exact Hl].
  apply init_state_inv in Hi. destruct Hi as [-> _].
  apply renumbered_map; [reflexivity|].
  unfold prepare. apply renumbered_map; [reflexivity|].
  apply explode_labels.
Qed.

(** ** A frame with nothing to simplify *)





(** ** The number of features *)

Lemma simplify_loop_count fuel c st out :
  union_law -> Forall single_part (gdf_out st) ->
  simplify_loop cfg fuel c st = Some (Ok out) ->
  length out <= length (gdf_out st).
Proof.
  intros Hu. revert st.
  induction fuel as [|fuel IH]; intros st Hs H; simpl in H.
  - destruct (loop_cond st); [discriminate|]. injection H as <-. lia.
  - destruct (loop_cond st).
    + destruct (pass cfg c st) as [st'|e] eqn:Hp; [|discriminate].
      destruct (pass_counts _ _ _ _ Hu Hs Hp) as [Ha [Hb Hle]].
      specialize (IH st' (pass_single _ _ _ _ Hp) H). lia.
    + injection H as <-. lia.
Qed.

(** X3.  With a union that never has more parts than went into it, the
    result has at most as many features as the input has single parts. *)
Theorem simplify_shps_count fuel gdf_in out :
  union_law ->
  simplify_shps cfg fuel gdf_in = Some (Ok out) ->
  length (rows out)
  <= length (flat_map (fun r => get_parts (geom r)) (rows gdf_in)).
Proof.
  intros Hu H. unfold simplify_shps in H.
  destruct (init_state cfg gdf_in) as [st|e] eqn:Hi; [|discriminate].
  destruct (frame_crs gdf_in) as [c|]; [|discriminate].
  destruct (simplify_loop cfg fuel c st) as [[l|e]|] eqn:Hl;
    try discriminate.
  injection H as <-. cbn [rows]. unfold finish. rewrite length_map.
  apply init_state_inv in Hi. destruct Hi as [Hg _].
  assert (Hs : Forall single_part (gdf_out st)).
  { rewrite Hg. apply map_keeps_single; [reflexivity|].
    apply prepare_single. }
  pose proof (simplify_loop_count _ _ _ _ Hu Hs Hl) as Hle.
  rewrite Hg, length_map in Hle.
  unfold prepare in Hle. rewrite length_map in Hle.
  unfold explode, reset_index in Hle.
  rewrite reindex_from_length, exploded_count_reindex in Hle.
  assert (Hparts : forall l0 : list row,
            length (flat_map explode_row l0)
            = length (flat_map (fun r => get_parts (geom r)) l0)).
  { induction l0 as [|r l0 IH0]; [reflexivity|].
    cbn [flat_map]. rewrite !length_app, IH0, explode_row_count.
    reflexivity. }
  now rewrite Hparts in Hle.
Qed.

(** ** Attributes come from the input *)

Section Attributes.
(** A property of rows that looks at the attribute columns only. *)
Variable P : row -> Prop.
Hypothesis P_attrs :
  forall r r', cat r' = cat r -> keep r' = keep r -> P r -> P r'.


Lemma attrs_reindex n l : Forall P l -> Forall P (reindex_from n l).
Proof.
  intros H. revert n. induction H as [|r l Hr _ IH]; intro n;
    cbn [reindex_from]; constructor; auto.
  exact (P_attrs r (set_idx n r) eq_refl eq_refl Hr).
Qed.

Lemma attrs_explode l : Forall P l -> Forall P (explode l).
Proof.
  intros H. unfold explode, reset_index. apply attrs_reindex.
  induction H as [|r l Hr _ IH]; cbn [flat_map]; [constructor|].
  apply Forall_app. split; [|exact IH].
  unfold explode_row. destruct (geom r) as [p|ps].
  - now constructor.
  - apply Forall_forall. intros t Ht. apply in_map_iff in Ht.
    destruct Ht as [p [<- _]].
    exact (P_attrs r (set_geom (Polygon p) r) eq_refl eq_refl Hr).
Qed.

Lemma attrs_insert_group r gs :
  P r -> Forall (Forall P) gs -> Forall (Forall P) (insert_group cfg r gs).
Proof.
  intros Hr H. induction H as [|g gs Hg Hgs IH]; cbn [insert_group].
  - repeat constructor. exact Hr.
  - destruct g as [|h g']; [exact IH|].
    destruct (values_eqb (dis_key cfg h) (dis_key cfg r)).
    + constructor; [|exact Hgs]. apply Forall_app. split; [exact Hg|].
      now constructor.
    + constructor; [exact Hg | exact IH].
Qed.

Lemma attrs_groups l : Forall P l -> Forall (Forall P) (groups cfg l).
Proof.
  unfold groups. intros H.
  assert (Hacc : Forall (Forall P) (@nil (list row))) by constructor.
  revert Hacc. generalize (@nil (list row)) as gs.
  induction H as [|r l Hr _ IH]; intros gs Hgs; cbn [fold_left];
    [exact Hgs|].
  apply IH. now apply attrs_insert_group.
Qed.

Lemma attrs_dissolve l : Forall P l -> Forall P (dissolve cfg l).
Proof.
  intros H. unfold dissolve, reset_index. apply attrs_reindex.
  pose proof (attrs_groups l H) as Hg.
  induction Hg as [|g gs Hg _ IH]; cbn [flat_map]; [constructor|].
  apply Forall_app. split; [|exact IH].
  destruct g as [|h g']; cbn [dissolve_group]; [constructor|].
  constructor; [|constructor].
  inversion Hg as [|x xs Hh _]; subst.
  exact (P_attrs h (set_geom _ h) eq_refl eq_refl Hh).
Qed.

Lemma attrs_refresh touch t :
  refresh cfg touch = Some t -> Forall P touch -> Forall P t.
Proof.
  unfold refresh. intros H Ht.
  destruct (existsb changed touch).
  - injection H as <-. now apply attrs_explode, attrs_dissolve.
  - destruct touch; [discriminate|]. now injection H as <-.
Qed.

End Attributes.

Lemma raster_policy_incl rst c r touch st :
  raster_policy rst c r touch = Ok st -> incl (snd st) touch.
Proof.
  unfold raster_policy. cbv zeta.
  destruct (idxmin _) as [i|e]; cbn [bind]; [|discriminate].
  destruct (loc touch i) as [best|]; [|discriminate].
  destruct (in_series _ _); intro H; injection H as <-; cbn [snd].
  - intros t Ht. apply filter_In in Ht. tauto.
  - apply incl_refl.
Qed.

Lemma select_incl c r touch sel :
  select cfg c r touch = Ok sel -> incl (snd sel) touch.
Proof.
  unfold select. cbv zeta.
  set (repl_id := match touch with [t] => Some (idx t) | _ => None end).
  destruct (match comp_raster cfg, repl_id with
            | Some rst, None => raster_policy rst c r touch
            | _, _ => Ok (repl_id, touch)
            end) as [st|e] eqn:Hst; cbn [bind]; [|discriminate].
  assert (Hincl : incl (snd st) touch).
  { destruct (comp_raster cfg) as [rst|], repl_id as [i|];
      try (injection Hst as <-; apply incl_refl).
    now apply raster_policy_incl in Hst. }
  destruct (fst st) as [i|].
  - intro H. injection H as <-. exact Hincl.
  - destruct (border_policy r (snd st)) as [i|e]; cbn [bind];
      [|discriminate].
    intro H. injection H as <-. exact Hincl.
Qed.

Lemma loc_In touch i nb : loc touch i = Some nb -> In nb touch /\ idx nb = i.
Proof.
  unfold loc. intros H. apply find_some in H. destruct H as [H1 H2].
  apply Nat.eqb_eq in H2. auto.
Qed.

Lemma valid_neighbors_spec g r t :
  In t (valid_neighbors cfg g r) -> In t g /\ admissible cfg r t.
Proof.
  unfold valid_neighbors, admissible. cbv zeta.
  destruct (keep_cols cfg); intro H.
  - apply filter_In in H. destruct H as [H Hk].
    apply filter_In in H. destruct H as [H Hc].
    apply filter_In in H. destruct H as [H Ht].
    repeat split; auto. intros _. now apply values_eqb_eq.
  - apply filter_In in H. destruct H as [H Hc].
    apply filter_In in H. destruct H as [H Ht].
    repeat split; auto. discriminate.
Qed.

(** What [resolve] does to the frame, in terms of the neighbour it took the
    category from. *)
Lemma resolve_source c g r g' :
  resolve cfg c g r = Ok g' ->
  g' = g \/
  exists t, In t g /\ admissible cfg r t /\
            g' = replace_cat g (idx r) (cat t).
Proof.
  unfold resolve.
  destruct (refresh cfg (valid_neighbors cfg g r)) as [touch|] eqn:Hr.
  - destruct (select cfg c r touch) as [sel|e] eqn:Hs; cbn [bind];
      [|discriminate].
    destruct (loc (snd sel) (fst sel)) as [nb|] eqn:Hl; [|discriminate].
    intro H. injection H as <-. right.
    apply loc_In in Hl. destruct Hl as [Hnb _].
    apply (select_incl _ _ _ _ Hs) in Hnb.
    pose (P := fun x : row =>
                 exists t, In t (valid_neighbors cfg g r) /\
                           cat t = cat x /\ keep t = keep x).
    assert (HP : Forall P touch).
    { apply (attrs_refresh P) with (touch := valid_neighbors cfg g r).
      - intros x x' Hc Hk [t [Ht [Hc' Hk']]]. exists t. split; [exact Ht|].
        split; congruence.
      - exact Hr.
      - apply Forall_forall. intros x Hx. exists x. auto. }
    rewrite Forall_forall in HP. destruct (HP nb Hnb) as [t [Ht [Hc _]]].
    apply valid_neighbors_spec in Ht. destruct Ht as [Ht Ha].
    exists t. rewrite Hc. auto.
  - intro H. injection H as <-. now left.
Qed.








(** X5.  On a frame without nulls, one turn of the [for] loop either
    leaves the frame as it is, or gives the rows labelled like the sliver
    the categories of a row of the frame that touches or intersects the
    sliver, differs from it in some category column and, with keep columns,
    agrees with it in all of them.  No geometry, no keep value and no label
    is touched, and the frame is still without nulls. *)
Theorem resolve_takes_admissible_category c g r g' :
  Forall filled g -> filled r ->
  resolve cfg c g r = Ok g' ->
  (g' = g \/
   exists t, In t g /\ admissible cfg r t /\
             g' = replace_cat g (idx r) (cat t)) /\
  map geom g' = map geom g /\ map keep g' = map keep g /\
  map idx g' = map idx g /\ Forall filled g'.
Proof.
  intros Hg _ H. pose proof (resolve_source _ _ _ _ H) as Hs.
  split; [exact Hs|].
  destruct Hs as [->|[t [Ht [_ ->]]]]; [auto|].
  unfold replace_cat. rewrite !map_map.
  repeat split; try (apply map_ext; intro x;
    destruct (Nat.eqb (idx x) (idx r)); reflexivity).
  rewrite Forall_forall in Hg. apply Forall_forall. intros x Hx.
  apply in_map_iff in Hx. destruct Hx as [y [<- Hy]].
  destruct (Nat.eqb (idx y) (idx r)); [|now apply Hg].
  unfold filled. cbn [cat keep set_changed set_cat]. intros Hin.
  apply in_app_iff in Hin. destruct Hin as [Hin|Hin].
  - apply (Hg t Ht). apply in_app_iff. now left.
  - apply (Hg y Hy). apply in_app_iff. now right.
Qed.

(** ** The raster policy *)

Lemma first_min_spec best l :
  exists q, In (first_min best l, q) (best :: l) /\
            (forall e, In e (best :: l) -> (q <= snd e)%Q).
Proof.
  revert best. induction l as [|x l IH]; intro best; cbn [first_min].
  - exists (snd best). split; [left; now destruct best|].
    intros e [<-|[]]. apply Qle_refl.
  - destruct (Qltb (snd x) (snd best)) eqn:Hlt.
    + destruct (IH x) as [q [Hin Hmin]]. exists q. split.
      * destruct Hin as [Hin|Hin]; [right; now left | right; now right].
      * intros e [<-|[<-|He]].
        -- apply Qltb_lt in Hlt. apply Qle_trans with (snd x).
           ++ apply Hmin. now left.
           ++ now apply Qlt_le_weak.
        -- apply Hmin. now left.
        -- apply Hmin. now right.
    + destruct (IH best) as [q [Hin Hmin]]. exists q. split.
      * destruct Hin as [Hin|Hin]; [now left | right; now right].
      * intros e [<-|[<-|He]].
        -- apply Hmin. now left.
        -- apply Qltb_ge in Hlt. apply Qle_trans with (snd best); [|exact Hlt].
           apply Hmin. now left.
        -- apply Hmin. now right.
Qed.

Lemma idxmin_spec (f : row -> Q) touch j :
  idxmin (map (fun t => (idx t, f t)) touch) = Ok j ->
  exists nb, In nb touch /\ idx nb = j /\
             forall t, In t touch -> (f nb <= f t)%Q.
Proof.
  unfold idxmin.
  destruct (map (fun t => (idx t, f t)) touch) as [|x l] eqn:Hm;
    [discriminate|].
  intro H. injection H as <-.
  destruct (first_min_spec x l) as [q [Hin Hle]].
  rewrite <- Hm in Hin, Hle.
  apply in_map_iff in Hin. destruct Hin as [nb [Hnb Hin]].
  assert (Hi : idx nb = first_min x l) by congruence.
  assert (Hq : f nb = q) by congruence.
  exists nb. split; [exact Hin|]. split; [exact Hi|].
  intros t Ht. rewrite Hq.
  apply (Hle (idx t, f t)). apply in_map_iff. exists t. auto.
Qed.

(** X6.  When the raster decides, the label it gives is that of a candidate
    whose raster difference is the least of all candidates, and the
    candidate set is left as it is. *)
Theorem raster_policy_least_difference rst c r touch i touch' :
  raster_policy rst c r touch = Ok (Some i, touch') ->
  touch' = touch /\
  exists nb, In nb touch /\ idx nb = i /\
    forall t, In t touch ->
      (raster_diff rst c r nb <= raster_diff rst c r t)%Q.
Proof.
  unfold raster_policy. cbv zeta.
  destruct (idxmin _) as [j|e] eqn:Hmin; cbn [bind]; [|discriminate].
  destruct (loc touch j) as [best|]; [|discriminate].
  destruct (in_series _ _); intro H; [discriminate|].
  injection H as <- <-. split; [reflexivity|].
  exact (idxmin_spec _ _ _ Hmin).
Qed.

(** ** The groups of [dissolve] *)

Lemma insert_group_concat r gs :
  Permutation (concat (insert_group cfg r gs)) (r :: concat gs).
Proof.
  induction gs as [|g gs IH]; cbn [insert_group concat].
  - reflexivity.
  - destruct g as [|h g']; [exact IH|].
    destruct (values_eqb (dis_key cfg h) (dis_key cfg r)).
    + cbn [concat]. rewrite <- app_assoc. symmetry.
      exact (Permutation_middle (h :: g') (concat gs) r).
    + cbn [concat]. rewrite IH. symmetry.
      exact (Permutation_middle (h :: g') (concat gs) r).
Qed.

Lemma groups_concat_from l gs :
  Permutation (concat (fold_left (fun gs r => insert_group cfg r gs) l gs))
              (concat gs ++ l).
Proof.
  revert gs. induction l as [|r l IH]; intro gs; cbn [fold_left].
  - now rewrite app_nil_r.
  - rewrite IH, insert_group_concat.
    exact (Permutation_middle (concat gs) l r).
Qed.

(** The groups met so far: none is empty, the rows of a group agree in the
    dissolve columns, and no two groups have the same values there. *)
Lemma insert_group_keys r gs :
  Forall (fun g => g <> []) gs ->
  map (fun g => option_map (dis_key cfg) (hd_error g)) (insert_group cfg r gs)
  = map (fun g => option_map (dis_key cfg) (hd_error g)) gs
  \/
  map (fun g => option_map (dis_key cfg) (hd_error g)) (insert_group cfg r gs)
  = map (fun g => option_map (dis_key cfg) (hd_error g)) gs
    ++ [Some (dis_key cfg r)].
Proof.
  intros H. induction H as [|g gs Hg _ IH]; cbn [insert_group map].
  - right. reflexivity.
  - destruct g as [|h g']; [contradiction|].
    destruct (values_eqb (dis_key cfg h) (dis_key cfg r)).
    + left. reflexivity.
    + cbn [map]. destruct IH as [-> | ->]; [left | right]; reflexivity.
Qed.

Lemma insert_group_grouped r gs :
  Forall (fun g => g <> []) gs ->
  Forall (fun g => forall a b, In a g -> In b g ->
                               dis_key cfg a = dis_key cfg b) gs ->
  NoDup (map (fun g => option_map (dis_key cfg) (hd_error g)) gs) ->
  Forall (fun g => g <> []) (insert_group cfg r gs) /\
  Forall (fun g => forall a b, In a g -> In b g ->
                               dis_key cfg a = dis_key cfg b)
         (insert_group cfg r gs) /\
  NoDup (map (fun g => option_map (dis_key cfg) (hd_error g))
             (insert_group cfg r gs)).
Proof.
  intros Hne. induction Hne as [|g gs Hg Hne IH]; intros Hu Hnd;
    cbn [insert_group].
  - repeat split.
    + repeat constructor. discriminate.
    + repeat constructor. intros a b [<-|[]] [<-|[]]. reflexivity.
    + repeat constructor. intros [].
  - destruct g as [|h g']; [contradiction|].
    inversion Hu as [|x xs Hug Hu']; subst.
    cbn [map hd_error option_map] in Hnd.
    inversion Hnd as [|x xs Hnotin Hnd']; subst.
    destruct (values_eqb (dis_key cfg h) (dis_key cfg r)) eqn:Hk.
    + apply values_eqb_eq in Hk. repeat split.
      * constructor; [|exact Hne]. destruct g'; discriminate.
      * constructor; [|exact Hu'].
        assert (Hall : forall a, In a ((h :: g') ++ [r]) ->
                                 dis_key cfg a = dis_key cfg h).
        { intros a Ha. apply in_app_iff in Ha. destruct Ha as [Ha|[<-|[]]].
          - apply Hug; [exact Ha | now left].
          - now symmetry. }
        intros a b Ha Hb. rewrite (Hall a Ha), (Hall b Hb). reflexivity.
      * cbn [map app hd_error option_map]. now constructor.
    + destruct (IH Hu' Hnd') as [H1 [H2 H3]]. repeat split.
      * constructor; [exact Hg | exact H1].
      * constructor; [exact Hug | exact H2].
      * cbn [map hd_error option_map]. constructor; [|exact H3].
        destruct (insert_group_keys r gs Hne) as [-> | ->];
          [exact Hnotin|].
        intros Hin. apply in_app_iff in Hin. destruct Hin as [Hin|[Hin|[]]].
        -- exact (Hnotin Hin).
        -- injection Hin as Hin.
           assert (Ht : values_eqb (dis_key cfg h) (dis_key cfg r) = true)
             by (apply values_eqb_eq; now symmetry).
           congruence.
Qed.

Lemma groups_grouped l :
  Forall (fun g => g <> []) (groups cfg l) /\
  Forall (fun g => forall a b, In a g -> In b g ->
                               dis_key cfg a = dis_key cfg b)
         (groups cfg l) /\
  NoDup (map (fun g => option_map (dis_key cfg) (hd_error g))
             (groups cfg l)).
Proof.
  unfold groups.
  assert (H0 : Forall (fun g : list row => g <> []) [] /\
               Forall (fun g => forall a b, In a g -> In b g ->
                                  dis_key cfg a = dis_key cfg b) [] /\
               NoDup (map (fun g => option_map (dis_key cfg) (hd_error g))
                          [])).
  { repeat split; constructor. }
  revert H0. generalize (@nil (list row)) as gs.
  induction l as [|r l IH]; intros gs H0; cbn [fold_left]; [exact H0|].
  apply IH. destruct H0 as [H1 [H2 H3]].
  now apply insert_group_grouped.
Qed.

Lemma NoDup_map_injective {A B} (f : A -> B) l x y :
  NoDup (map f l) -> In x l -> In y l -> f x = f y -> x = y.
Proof.
  induction l as [|a l IH]; cbn [map]; [contradiction|].
  intros Hnd Hx Hy He. inversion Hnd as [|b bs Hnotin Hnd']; subst.
  destruct Hx as [<-|Hx], Hy as [<-|Hy]; auto.
  - exfalso. apply Hnotin. rewrite He. now apply in_map.
  - exfalso. apply Hnotin. rewrite <- He. now apply in_map.
Qed.

Lemma reindex_from_geoms n l :
  map geom (reindex_from n l) = map geom l.
Proof.
  revert n. induction l as [|r l IH]; intro n; [reflexivity|].
  cbn [reindex_from map]. now rewrite IH.
Qed.

Lemma dissolve_group_geoms (gs : list (list row)) :
  Forall (fun g => g <> []) gs ->
  map geom (flat_map dissolve_group gs)
  = map (fun g => unary_union (map geom g)) gs.
Proof.
  intros H. induction H as [|g gs Hg _ IH]; [reflexivity|].
  cbn [flat_map map]. rewrite map_app, IH.
  destruct g as [|h g']; [contradiction | reflexivity].
Qed.

(** X7.  On a frame without nulls, [dissolve] groups the rows by the values
    of the dissolve columns, and by nothing else: every row is in exactly
    one group, the rows of a group agree in all dissolve columns, rows that
    agree are in the same group, and the frame that comes out has one row
    per group, with the union of the group's geometries. *)
Theorem dissolve_groups_by_key l :
  Forall filled l ->
  Permutation (concat (groups cfg l)) l /\
  (forall g a b, In g (groups cfg l) -> In a g -> In b g ->
                 dis_key cfg a = dis_key cfg b) /\
  (forall g1 g2 a b,
     In g1 (groups cfg l) -> In g2 (groups cfg l) ->
     In a g1 -> In b g2 -> dis_key cfg a = dis_key cfg b -> g1 = g2) /\
  map geom (dissolve cfg l)
  = map (fun g => unary_union (map geom g)) (groups cfg l).
Proof.
  intros _. destruct (groups_grouped l) as [Hne [Hu Hnd]].
  rewrite Forall_forall in Hne, Hu.
  split; [|split; [|split]].
  - exact (groups_concat_from l []).
  - intros g a b Hg. now apply Hu.
  - intros g1 g2 a b H1 H2 Ha Hb Hk.
    apply (NoDup_map_injective _ _ _ _ Hnd H1 H2).
    destruct g1 as [|h1 g1']; [destruct Ha|].
    destruct g2 as [|h2 g2']; [destruct Hb|].
    cbn [hd_error option_map]. f_equal.
    rewrite (Hu _ H1 h1 a (or_introl eq_refl) Ha).
    rewrite (Hu _ H2 h2 b (or_introl eq_refl) Hb). exact Hk.
  - unfold dissolve, reset_index. rewrite reindex_from_geoms.
    apply dissolve_group_geoms. apply Forall_forall. exact Hne.
Qed.

(** ** The partitioned variant *)

(** X8.  With index labels that are not distinct a feature can be lost on
    the way to the final call: a feature that lies in no quarter, and whose
    label is also the label of a feature of some part, is in no part and is
    not among the excluded shapes. *)
Theorem shared_label_loses_feature d l r r' q0 :
  In r l ->
  (forall q, in_quarter (mean_x l) (mean_y l) q (bounds (geom r)) = false) ->
  In r' (part cfg d l q0) -> idx r' = idx r ->
  ~ In r (excluded_shps cfg d l) /\
  (forall q, ~ In r (part cfg d l q)).
Proof.
  intros Hr Hout Hr' Hi. split.
  - unfold excluded_shps. intros H. apply filter_In in H.
    destruct H as [_ H]. apply negb_true_iff in H.
    assert (Hin : isin (idx r) (indexes_in_parts cfg d l) = true).
    { apply isin_spec. unfold indexes_in_parts. apply in_flat_map.
      exists q0. split; [destruct q0; cbn; auto|].
      unfold labels. rewrite <- Hi. now apply in_map. }
    congruence.
  - intros q H. unfold part in H. apply filter_In in H. destruct H as [H _].
    unfold part_raw in H. apply filter_In in H. destruct H as [_ H].
    rewrite Hout in H. discriminate.
Qed.

Lemma simplify_shps_shape fuel gdf_in out :
  simplify_shps cfg fuel gdf_in = Some (Ok out) ->
  Forall single_part (rows out) /\
  map idx (rows out) = seq 0 (length (rows out)).
Proof.
  unfold simplify_shps. intros H.
  destruct (init_state cfg gdf_in) as [st|e] eqn:Hi; [|discriminate].
  destruct (frame_crs gdf_in) as [c|]; [|discriminate].
  destruct (simplify_loop cfg fuel c st) as [[l|e]|] eqn:Hl;
    try discriminate.
  injection H as <-. cbn [rows]. unfold finish.
  apply init_state_inv in Hi. destruct Hi as [Hg _]. split.
  - apply map_keeps_single; [reflexivity|].
    apply (simplify_loop_single cfg fuel c st); [|exact Hl].
    rewrite Hg. apply map_keeps_single; [reflexivity|].
    apply prepare_single.
  - apply renumbered_map; [reflexivity|].
    apply (simplify_loop_labels fuel c st); [|exact Hl].
    rewrite Hg. apply renumbered_map; [reflexivity|].
    unfold prepare. apply renumbered_map; [reflexivity|].
    apply explode_labels.
Qed.

(** X9.  What [simplify_shps_mp] returns has the shape of a result of
    [simplify_shps]: Polygons only, labelled 0, 1, 2, ..., in the CRS of
    the input. *)
Theorem simplify_shps_mp_shape fuel d gdf_in out :
  simplify_shps_mp cfg fuel d gdf_in = Some (Ok out) ->
  Forall single_part (rows out) /\
  map idx (rows out) = seq 0 (length (rows out)) /\
  frame_crs out = frame_crs gdf_in.
Proof.
  unfold simplify_shps_mp. cbv zeta.
  destruct (simplify_parts cfg fuel (frame_crs gdf_in) _) as [[ps|e]|];
    try discriminate.
  intros H. destruct (simplify_shps_shape _ _ _ H) as [H1 H2].
  split; [exact H1|]. split; [exact H2|].
  unfold simplify_shps in H.
  destruct (init_state cfg _) as [st|e]; [|discriminate].
  cbn [frame_crs] in H. destruct (frame_crs gdf_in) as [c|]; [|discriminate].
  destruct (simplify_loop cfg fuel c st) as [[l|e]|]; try discriminate.
  now injection H as <-.
Qed.

(** ** The sentinel *)



End SimplifyMore.

(** * The module's own [explode] *)
Module LegacyFacts.
Import Legacy.
Section Explode.
Context {E : Engine}.
Variable attrs : Type.

Lemma relabel_from_length n (l : list (record attrs)) :
  length (relabel_from attrs n l) = length l.
Proof.
  revert n. induction l as [|r l IH]; intro n; cbn [relabel_from length];
    [reflexivity|]. now rewrite IH.
Qed.

Lemma relabel_from_app n (l1 l2 : list (record attrs)) :
  relabel_from attrs n (l1 ++ l2)
  = relabel_from attrs n l1 ++ relabel_from attrs (n + length l1) l2.
Proof.
  revert n. induction l1 as [|r l1 IH]; intro n; cbn [app relabel_from length].
  - now rewrite Nat.add_0_r.
  - rewrite IH. now rewrite Nat.add_succ_r.
Qed.

Lemma relabel_from_twice n m (l : list (record attrs)) :
  relabel_from attrs n (relabel_from attrs m l) = relabel_from attrs n l.
Proof.
  revert n m. induction l as [|r l IH]; intros n m; cbn [relabel_from];
    [reflexivity|]. now rewrite IH.
Qed.

Lemma relabel_from_names n (l : list (record attrs)) :
  map name (relabel_from attrs n l) = seq n (length l).
Proof.
  revert n. induction l as [|r l IH]; intro n;
    cbn [relabel_from map length seq]; [reflexivity|]. now rewrite IH.
Qed.

Lemma relabel_from_cells n (l : list (record attrs)) :
  map geometry_of (relabel_from attrs n l) = map geometry_of l.
Proof.
  revert n. induction l as [|r l IH]; intro n; cbn [relabel_from map];
    [reflexivity|]. now rewrite IH.
Qed.

(** Appending to a relabelled frame. *)
Lemma append_relabelled (l1 l2 : list (record attrs)) :
  append attrs (relabel_from attrs 0 l1) l2 = relabel_from attrs 0 (l1 ++ l2).
Proof.
  unfold append. rewrite !relabel_from_app, relabel_from_twice.
  now rewrite relabel_from_length.
Qed.

Lemma append_relabels_right (l1 l2 : list (record attrs)) :
  append attrs l1 (relabel_from attrs 0 l2) = relabel_from attrs 0 (l1 ++ l2).
Proof.
  unfold append. rewrite !relabel_from_app, relabel_from_twice. reflexivity.
Qed.

(** [set_loc] leaves a frame without the label alone. *)
Lemma set_loc_absent k g (l : list (record attrs)) :
  (forall r, In r l -> name r <> k) -> set_loc attrs k g l = l.
Proof.
  intros H. unfold set_loc. induction l as [|r l IH]; [reflexivity|].
  cbn [map]. destruct (Nat.eqb_spec (name r) k) as [He|_].
  - exfalso. apply (H r); [now left | exact He].
  - f_equal. apply IH. intros x Hx. apply H. now right.
Qed.

Lemma set_loc_app k g (l1 l2 : list (record attrs)) :
  set_loc attrs k g (l1 ++ l2) = set_loc attrs k g l1 ++ set_loc attrs k g l2.
Proof. unfold set_loc. apply map_app. Qed.

Lemma set_loc_hit k g r (l : list (record attrs)) :
  set_loc attrs k g (set_name attrs k r :: l)
  = set_name attrs k (set_geometry attrs g r) :: set_loc attrs k g l.
Proof.
  unfold set_loc. cbn [map set_name name]. now rewrite Nat.eqb_refl.
Qed.

Lemma relabel_from_range n (l : list (record attrs)) r :
  In r (relabel_from attrs n l) -> n <= name r < n + length l.
Proof.
  intros H. apply (in_map name) in H. rewrite relabel_from_names in H.
  apply in_seq in H. exact H.
Qed.

(** The copies after the first [k] parts have been written. *)
Lemma multdf_prefix (row : record attrs) (parts : list poly) k :
  k <= length parts ->
  fold_left
    (fun df k => match nth_error parts k with
                 | Some p => set_loc attrs k (Areal (Polygon p)) df
                 | None => df
                 end)
    (seq 0 k) (append attrs [] (repeat row (length parts)))
  = relabel_from attrs 0
      (map (fun p => set_geometry attrs (Areal (Polygon p)) row)
           (firstn k parts)
       ++ repeat row (length parts - k)).
Proof.
  induction k as [|k IH]; intro Hk.
  - cbn [seq fold_left firstn map app]. now rewrite Nat.sub_0_r.
  - rewrite seq_S, fold_left_app, IH by lia. cbn [Nat.add fold_left].
    destruct (nth_error parts k) as [p|] eqn:Hp.
    2:{ apply nth_error_None in Hp. lia. }
    assert (Hf : firstn (S k) parts = firstn k parts ++ [p]).
    { clear IH Hk. revert k Hp. induction parts as [|q ps IHp]; intros k Hp.
      - destruct k; discriminate.
      - destruct k as [|k]; cbn [nth_error] in Hp.
        + injection Hp as ->. reflexivity.
        + cbn [firstn app]. f_equal.
          exact (IHp k Hp). }
    rewrite Hf, map_app. cbn [map].
    replace (length parts - k) with (S (length parts - S k)) by lia.
    cbn [repeat]. rewrite <- !app_assoc. cbn [app].
    rewrite !relabel_from_app. cbn [relabel_from Nat.add].
    rewrite !length_map.
    assert (Hlen : length (firstn k parts) = k).
    { apply firstn_length_le. lia. }
    rewrite Hlen, set_loc_app, set_loc_hit.
    rewrite set_loc_absent.
    2:{ intros r Hr. apply relabel_from_range in Hr.
        rewrite length_map, Hlen in Hr. lia. }
    rewrite set_loc_absent.
    2:{ intros r Hr. apply relabel_from_range in Hr. lia. }
    reflexivity.
Qed.

Lemma multdf_pieces (row : record attrs) (parts : list poly) :
  multdf attrs row parts
  = relabel_from attrs 0
      (map (fun p => set_geometry attrs (Areal (Polygon p)) row) parts).
Proof.
  unfold multdf. cbv zeta. rewrite multdf_prefix by lia.
  rewrite firstn_all, Nat.sub_diag. cbn [repeat]. now rewrite app_nil_r.
Qed.

Lemma step_pieces (l : list (record attrs)) row :
  step attrs (relabel_from attrs 0 l) row
  = relabel_from attrs 0 (l ++ pieces attrs row).
Proof.
  unfold step, pieces. cbv zeta.
  destruct (geometry_of row) as [[p|ps]|].
  - apply append_relabelled.
  - rewrite multdf_pieces, append_relabels_right.
    rewrite relabel_from_app, relabel_from_twice, relabel_from_length.
    now rewrite <- relabel_from_app.
  - now rewrite app_nil_r.
Qed.

Lemma explode_from (l acc : list (record attrs)) :
  fold_left (step attrs) l (relabel_from attrs 0 acc)
  = relabel_from attrs 0 (acc ++ flat_map (pieces attrs) l).
Proof.
  revert acc. induction l as [|r l IH]; intro acc; cbn [fold_left flat_map].
  - now rewrite app_nil_r.
  - rewrite step_pieces, IH. now rewrite <- app_assoc.
Qed.

(** The loop in one expression: the pieces of the rows, one after the
    other, relabelled. *)
Lemma explode_pieces (l : list (record attrs)) :
  explode attrs l = relabel_from attrs 0 (flat_map (pieces attrs) l).
Proof. exact (explode_from l []). Qed.

Lemma pieces_hold_polygons (r x : record attrs) :
  In x (pieces attrs r) -> holds_polygon attrs x.
Proof.
  unfold pieces, holds_polygon.
  destruct (geometry_of r) as [[p|ps]|] eqn:Hg.
  - intros [<-|[]]. now rewrite Hg.
  - intros H. apply in_map_iff in H. destruct H as [p [<- _]]. exact I.
  - intros [].
Qed.

Lemma relabel_from_hold n (l : list (record attrs)) :
  Forall (holds_polygon attrs) l ->
  Forall (holds_polygon attrs) (relabel_from attrs n l).
Proof.
  intros H. revert n. induction H as [|r l Hr _ IH]; intro n;
    cbn [relabel_from]; constructor; auto.
Qed.

Lemma pieces_of_polygons (l : list (record attrs)) :
  Forall (holds_polygon attrs) l -> flat_map (pieces attrs) l = l.
Proof.
  intros H. induction H as [|r l Hr _ IH]; [reflexivity|].
  cbn [flat_map]. rewrite IH. unfold pieces, holds_polygon in *.
  destruct (geometry_of r) as [[p|ps]|]; try contradiction. reflexivity.
Qed.

(** X10.  The frame [explode] returns holds Polygons only and is labelled
    0, 1, 2, ...; it has one row for every Polygon and for every part of a
    MultiPolygon of the input, and none for a row whose geometry is of
    another type: such rows are left out without a word. *)
Theorem explode_polygons_only (l : list (record attrs)) :
  Forall (holds_polygon attrs) (explode attrs l) /\
  map name (explode attrs l) = seq 0 (length (explode attrs l)) /\
  length (explode attrs l)
  = list_sum (map (fun r => match geometry_of r with
                            | Areal g => length (get_parts g)
                            | Other => 0
                            end) l).
Proof.
  rewrite explode_pieces. split; [|split].
  - apply relabel_from_hold. apply Forall_forall. intros x Hx.
    apply in_flat_map in Hx. destruct Hx as [r [_ Hx]].
    exact (pieces_hold_polygons r x Hx).
  - rewrite relabel_from_names, relabel_from_length. reflexivity.
  - rewrite relabel_from_length.
    induction l as [|r l IH]; [reflexivity|].
    cbn [flat_map map list_sum fold_right]. rewrite length_app, IH.
    f_equal. unfold pieces.
    destruct (geometry_of r) as [[p|ps]|]; cbn [get_parts];
      [reflexivity | apply length_map | reflexivity].
Qed.

(** X11.  Exploding an exploded frame changes nothing. *)
Theorem explode_idempotent (l : list (record attrs)) :
  explode attrs (explode attrs l) = explode attrs l.
Proof.
  rewrite (explode_pieces (explode attrs l)).
  rewrite pieces_of_polygons.
  - rewrite explode_pieces. apply relabel_from_twice.
  - rewrite explode_pieces. apply relabel_from_hold. apply Forall_forall.
    intros x Hx. apply in_flat_map in Hx. destruct Hx as [r [_ Hx]].
    exact (pieces_hold_polygons r x Hx).
Qed.

End Explode.

End LegacyFacts.

Lemma of_row_reindex {E : Engine} n (l : list row) :
  map Legacy.of_row (reindex_from n l) = Legacy.relabel_from _ n (map Legacy.of_row l).
Proof.
  revert n. induction l as [|r l IH]; intro n; [reflexivity|].
  cbn [reindex_from map Legacy.relabel_from]. now rewrite IH.
Qed.

(** X12.  On a frame of Polygons and MultiPolygons the function does what
    [GeoDataFrame.explode(ignore_index=True, index_parts=False)] does, the
    call its docstring recommends and [simplify_shps] uses. *)
Theorem explode_agrees_with_geopandas {E : Engine} (l : list row) :
  Legacy.explode _ (map Legacy.of_row l) = map Legacy.of_row (explode l).
Proof.
  rewrite LegacyFacts.explode_pieces. unfold explode, reset_index.
  rewrite of_row_reindex. f_equal.
  induction l as [|r l IH]; [reflexivity|].
  cbn [map flat_map]. rewrite map_app, IH. f_equal.
  unfold Legacy.pieces, explode_row, Legacy.of_row. cbn [Legacy.geometry_of].
  destruct (geom r) as [p|ps] eqn:Hg.
  - cbn [map]. now rewrite Hg.
  - rewrite map_map. reflexivity.
Qed.

(** * [neighboor_xys] *)
Module NeighboursFacts.
Import Neighbours.
Section Neighbours.
Variable F : Type.
Variable eqb : F -> F -> bool.
Variable zero : F.
Variable neg : F -> F.
Variables add mul : F -> F -> F.
Variables cos_pi_4 cos_pi_8 sin_pi_8 cos_3pi_8 sin_3pi_8 : F.

(** X13.  For numbers whose [==] is equality, the call returns sixteen
    points, not nine: four steps along the axes and twelve on the three
    pairs of diagonals.  When [dist], [-dist] and 0 differ, the first four
    are the base point moved by [(dist, 0)], [(0, dist)], [(0, -dist)] and
    [(-dist, 0)]. *)
Theorem neighboor_xys_sixteen xy_null dist :
  (forall x y, eqb x y = true <-> x = y) ->
  exists l,
    neighboor_xys F eqb zero neg add mul
      cos_pi_4 cos_pi_8 sin_pi_8 cos_3pi_8 sin_3pi_8 xy_null dist = Ok l /\
    length l = 16 /\
    (NoDup [dist; zero; neg dist] ->
     firstn 4 l
     = map (fun a => (add (fst xy_null) (fst a), add (snd xy_null) (snd a)))
           (axis_steps F zero neg dist)).
Proof.
  intros Heq.
  assert (Hrefl : forall x, eqb x x = true) by (intro x; now apply Heq).
  destruct (eqb dist zero) eqn:H1, (eqb zero dist) eqn:H2,
           (eqb dist (neg dist)) eqn:H3, (eqb (neg dist) dist) eqn:H4,
           (eqb zero (neg dist)) eqn:H5, (eqb (neg dist) zero) eqn:H6;
  try solve
    [ exfalso;
      repeat match goal with
             | H : eqb ?a ?b = true |- _ => apply Heq in H
             | H : eqb ?a ?b = false |- _ =>
                 assert (a <> b)
                   by (intro Hc; apply Heq in Hc; congruence);
                 clear H
             end;
      congruence ];
  unfold neighboor_xys, product; cbv zeta;
  cbn [list_prod map app];
  repeat (cbn [remove_each remove bind]; unfold xy_eqb; cbn [fst snd];
          rewrite ?Hrefl, ?H1, ?H2, ?H3, ?H4, ?H5, ?H6; cbn [andb bind]);
  (eexists; split; [reflexivity|]; split; [reflexivity|]);
  intros Hnd; try reflexivity;
  exfalso;
  repeat match goal with
         | H : eqb ?a ?b = true |- _ => apply Heq in H
         end;
  inversion Hnd as [|? ? Hn1 Hnd1]; subst;
  inversion Hnd1 as [|? ? Hn2 _]; subst;
  cbn [In] in Hn1, Hn2; intuition congruence.
Qed.

End Neighbours.
End NeighboursFacts.

(** * [raster_to_contour_polys] *)
Module ContoursFacts.
Import Contours.
Section Contours.
Variables point polygon : Type.
Variable transform : point -> point.
Variable Polygon : list point -> polygon.
Variable difference : polygon -> polygon -> polygon.
Variable buffer0 : polygon -> polygon.

Local Abbreviation rings_loop := (rings_loop point polygon transform Polygon difference).
Local Abbreviation paths_loop := (paths_loop point polygon transform Polygon difference).
Local Abbreviation collections_loop :=
  (collections_loop point polygon transform Polygon difference).
Local Abbreviation raster_to_contour_polys :=
  (raster_to_contour_polys point polygon transform Polygon difference buffer0).
Local Abbreviation with_holes := (with_holes point polygon transform Polygon difference).
Local Abbreviation entries := (entries point polygon transform Polygon difference buffer0).

Lemma skipped_iff (ring : list point) :
  (length ring <=? 2) = negb (usable point ring).
Proof.
  unfold usable.
  destruct (Nat.leb_spec (length ring) 2), (Nat.ltb_spec 2 (length ring));
    try reflexivity; lia.
Qed.

(** Past the first ring, with a polygon in hand, the loop cannot fail. *)
Lemma rings_loop_cut j rings p :
  exists q, rings_loop (S j) rings (Some p) = Returns (Some q).
Proof.
  revert j p. induction rings as [|ring rings IH]; intros j p;
    cbn [Contours.rings_loop].
  - now exists p.
  - destruct (length ring <=? 2); apply IH.
Qed.

(** Past the first ring, without a polygon, it fails on the first ring it
    does not skip. *)
Lemma rings_loop_headless j rings :
  rings_loop (S j) rings None
  = if existsb (usable point) rings then AttributeError else Returns None.
Proof.
  revert j. induction rings as [|ring rings IH]; intro j;
    cbn [Contours.rings_loop existsb]; [reflexivity|].
  rewrite skipped_iff. destruct (usable point ring); cbn [negb orb].
  - reflexivity.
  - apply IH.
Qed.

Lemma rings_loop_fails p :
  rings_loop 0 (to_polygons p) None = AttributeError <->
  match to_polygons p with
  | [] => false
  | first :: others => negb (usable point first) && existsb (usable point) others
  end = true.
Proof.
  destruct (to_polygons p) as [|first others]; cbn [Contours.rings_loop].
  - split; discriminate.
  - rewrite skipped_iff. destruct (usable point first); cbn [negb andb].
    + destruct (rings_loop_cut 0 others
                  (Polygon (map transform first))) as [q ->].
      split; discriminate.
    + rewrite rings_loop_headless.
      destruct (existsb (usable point) others); split;
        (reflexivity || discriminate).
Qed.

Lemma paths_loop_fails i paths acc :
  paths_loop i paths acc = AttributeError <->
  existsb (headless point) paths = true.
Proof.
  revert acc. induction paths as [|p paths IH]; intro acc;
    cbn [Contours.paths_loop existsb].
  - split; discriminate.
  - unfold headless at 1.
    destruct (Nat.leb_spec (vertices p) 2) as [Hv|Hv].
    + destruct (Nat.ltb_spec 2 (vertices p)); [lia|]. cbn [andb orb].
      apply IH.
    + destruct (Nat.ltb_spec 2 (vertices p)); [|lia]. cbn [andb].
      pose proof (rings_loop_fails p) as Hf.
      destruct (rings_loop 0 (to_polygons p) None) as [[poly|]|].
      * destruct (match to_polygons p with
                  | [] => false
                  | first :: others =>
                      negb (usable point first) &&
                      existsb (usable point) others
                  end).
        -- destruct Hf as [_ Hf]. discriminate (Hf eq_refl).
        -- cbn [orb]. apply IH.
      * destruct (match to_polygons p with
                  | [] => false
                  | first :: others =>
                      negb (usable point first) &&
                      existsb (usable point) others
                  end).
        -- destruct Hf as [_ Hf]. discriminate (Hf eq_refl).
        -- cbn [orb]. apply IH.
      * destruct Hf as [Hf _]. rewrite (Hf eq_refl). cbn [orb].
        split; reflexivity.
Qed.

Lemma collections_loop_fails i collections acc :
  collections_loop i collections acc = AttributeError <->
  existsb (existsb (headless point)) collections = true.
Proof.
  revert i acc. induction collections as [|paths cs IH]; intros i acc;
    cbn [Contours.collections_loop existsb].
  - split; discriminate.
  - pose proof (paths_loop_fails i paths acc) as Hf.
    destruct (paths_loop i paths acc) as [acc'|].
    + destruct (existsb (headless point) paths).
      * destruct Hf as [_ Hf]. discriminate (Hf eq_refl).
      * cbn [orb]. apply IH.
    + destruct Hf as [Hf _]. rewrite (Hf eq_refl). split; reflexivity.
Qed.

(** X14.  The call fails with the [AttributeError] of [None.difference]
    exactly when some path with more than two vertices has a first ring of
    at most two points and a later ring of more than two; on every other
    input it returns. *)
Theorem contour_polys_failure collections :
  raster_to_contour_polys collections = AttributeError <->
  existsb (existsb (headless point)) collections = true.
Proof.
  unfold Contours.raster_to_contour_polys.
  rewrite <- (collections_loop_fails 0 collections []).
  destruct (collections_loop 0 collections []); split;
    (reflexivity || discriminate).
Qed.

(** What one collection adds: entries labelled with its number, at most one
    for each of its paths. *)
Lemma paths_loop_adds i paths acc acc' :
  paths_loop i paths acc = Returns acc' ->
  exists extra, acc' = acc ++ extra /\
                Forall (fun e => fst e = i) extra /\
                length extra <= length paths.
Proof.
  revert acc. induction paths as [|p paths IH]; intro acc;
    cbn [Contours.paths_loop].
  - intros H. injection H as <-. exists []. rewrite app_nil_r.
    repeat split; [constructor | cbn; lia].
  - destruct (vertices p <=? 2).
    + intros H. destruct (IH _ H) as [extra [-> [Hl Hn]]].
      exists extra. repeat split; auto. cbn [length]. lia.
    + destruct (rings_loop 0 (to_polygons p) None) as [[poly|]|];
        [| |discriminate].
      * intros H. destruct (IH _ H) as [extra [-> [Hl Hn]]].
        exists ((i, poly) :: extra). rewrite <- app_assoc.
        repeat split; [constructor; auto | cbn [length]; lia].
      * intros H. destruct (IH _ H) as [extra [-> [Hl Hn]]].
        exists extra. repeat split; auto. cbn [length]. lia.
Qed.

Lemma labels_sorted_app i (e1 e2 : list (nat * polygon)) :
  Forall (fun e => fst e = i) e1 ->
  Sorted.StronglySorted le (map fst e2) ->
  Forall (fun e => i <= fst e) e2 ->
  Sorted.StronglySorted le (map fst (e1 ++ e2)).
Proof.
  intros H1 H2 Hb. induction H1 as [|x e1 Hx H1 IH]; [exact H2|].
  cbn [map app]. constructor; [exact IH|].
  apply Forall_forall. intros n Hn.
  apply in_map_iff in Hn. destruct Hn as [y [<- Hy]].
  apply in_app_iff in Hy. destruct Hy as [Hy|Hy].
  - rewrite Forall_forall in H1. rewrite (H1 y Hy). lia.
  - rewrite Forall_forall in Hb. specialize (Hb y Hy). lia.
Qed.

Lemma collections_loop_adds i collections acc acc' :
  collections_loop i collections acc = Returns acc' ->
  exists extra, acc' = acc ++ extra /\
                Sorted.StronglySorted le (map fst extra) /\
                Forall (fun e => i <= fst e < i + length collections) extra /\
                length extra <= length (concat collections).
Proof.
  revert i acc. induction collections as [|paths cs IH]; intros i acc;
    cbn [Contours.collections_loop].
  - intros H. injection H as <-. exists []. rewrite app_nil_r.
    repeat split; constructor.
  - destruct (paths_loop i paths acc) as [acc1|] eqn:Hp; [|discriminate].
    intros H. apply paths_loop_adds in Hp.
    destruct Hp as [e1 [-> [Hl1 Hn1]]].
    destruct (IH _ _ H) as [e2 [-> [Hs2 [Hb2 Hn2]]]].
    exists (e1 ++ e2). rewrite <- app_assoc.
    split; [reflexivity|]. split; [|split].
    + apply labels_sorted_app with (i := i); [exact Hl1 | exact Hs2 |].
      eapply Forall_impl; [|exact Hb2]. intros x Hx. cbv beta in Hx. lia.
    + apply Forall_app. split.
      * eapply Forall_impl; [|exact Hl1]. cbn [length]. intros x ->. lia.
      * eapply Forall_impl; [|exact Hb2]. cbn [length]. intros x Hx. lia.
    + cbn [concat]. rewrite !length_app. lia.
Qed.

(** X15.  The labels of the series that comes back are numbers of
    collections, in ascending order, and the series has at most one entry
    for every path. *)
Theorem contour_polys_labels collections out :
  raster_to_contour_polys collections = Returns out ->
  Sorted.StronglySorted le (map fst out) /\
  Forall (fun e => fst e < length collections) out /\
  length out <= length (concat collections).
Proof.
  unfold Contours.raster_to_contour_polys.
  destruct (collections_loop 0 collections []) as [acc|] eqn:Hc;
    [|discriminate].
  intros H. injection H as <-.
  apply collections_loop_adds in Hc.
  destruct Hc as [extra [-> [Hs [Hb Hn]]]]. cbn [app].
  rewrite map_map. cbn [fst]. split; [exact Hs|]. split.
  - apply Forall_forall. intros e He. apply in_map_iff in He.
    destruct He as [x [<- Hx]]. cbn [fst].
    rewrite Forall_forall in Hb. specialize (Hb x Hx). lia.
  - now rewrite length_map.
Qed.

(** All rings usable: the outer ring, then one difference per hole. *)
Lemma rings_loop_holes j holes p :
  (forall ring, In ring holes -> 2 < length ring) ->
  rings_loop (S j) holes (Some p)
  = Returns (Some (fold_left
                     (fun poly h => difference poly
                                      (Polygon (map transform h)))
                     holes p)).
Proof.
  revert j p. induction holes as [|h holes IH]; intros j p Hall;
    cbn [Contours.rings_loop fold_left]; [reflexivity|].
  destruct (Nat.leb_spec (length h) 2) as [Hh|_].
  - specialize (Hall h (or_introl eq_refl)). lia.
  - apply IH. intros ring Hr. apply Hall. now right.
Qed.

Lemma rings_loop_regular p :
  (forall ring, In ring (to_polygons p) -> 2 < length ring) ->
  rings_loop 0 (to_polygons p) None = Returns (with_holes p).
Proof.
  unfold Contours.with_holes.
  destruct (to_polygons p) as [|outer holes]; intro Hall;
    cbn [Contours.rings_loop]; [reflexivity|].
  destruct (Nat.leb_spec (length outer) 2) as [Hh|_].
  - specialize (Hall outer (or_introl eq_refl)). lia.
  - apply rings_loop_holes. intros ring Hr. apply Hall. now right.
Qed.

Lemma paths_loop_regular i paths acc :
  (forall p, In p paths ->
     2 < vertices p /\
     forall ring, In ring (to_polygons p) -> 2 < length ring) ->
  paths_loop i paths acc
  = Returns (acc ++ flat_map (fun p => match with_holes p with
                                       | Some poly => [(i, poly)]
                                       | None => []
                                       end) paths).
Proof.
  revert acc. induction paths as [|p paths IH]; intros acc Hall;
    cbn [Contours.paths_loop flat_map].
  - now rewrite app_nil_r.
  - destruct (Hall p (or_introl eq_refl)) as [Hv Hr].
    destruct (Nat.leb_spec (vertices p) 2) as [Hle|_]; [lia|].
    rewrite (rings_loop_regular p Hr).
    destruct (with_holes p) as [poly|].
    + rewrite IH by (intros q Hq; apply Hall; now right).
      now rewrite <- app_assoc.
    + apply IH. intros q Hq. apply Hall. now right.
Qed.

Lemma collections_loop_regular i collections acc :
  regular point collections ->
  exists extra,
    collections_loop i collections acc = Returns (acc ++ extra) /\
    map (fun e => (fst e, buffer0 (snd e))) extra = entries i collections.
Proof.
  revert i acc. induction collections as [|paths cs IH]; intros i acc Hreg;
    cbn [Contours.collections_loop Contours.entries].
  - exists []. now rewrite app_nil_r.
  - rewrite paths_loop_regular.
    2:{ intros p Hp. apply (Hreg paths p); [now left | exact Hp]. }
    destruct (IH (S i) (acc ++ flat_map
                          (fun p => match with_holes p with
                                    | Some poly => [(i, poly)]
                                    | None => []
                                    end) paths)) as [extra [-> He]].
    { intros ps p Hps Hp. apply (Hreg ps p); [now right | exact Hp]. }
    eexists. rewrite <- app_assoc. split; [reflexivity|].
    rewrite map_app, He. f_equal.
    clear. induction paths as [|p paths IH]; [reflexivity|].
    cbn [flat_map]. rewrite map_app, IH. f_equal.
    destruct (with_holes p); reflexivity.
Qed.

(** X16.  When no path and no ring is degenerate, the call returns, in the
    order of the collections and of their paths, one polygon per path with
    rings: the first ring with every further ring taken out of it, one
    after the other, passed through [buffer(0)] and labelled with the
    number of the collection. *)
Theorem contour_polys_regular collections :
  regular point collections ->
  raster_to_contour_polys collections = Returns (entries 0 collections).
Proof.
  intros Hreg. unfold Contours.raster_to_contour_polys.
  destruct (collections_loop_regular 0 collections [] Hreg)
    as [extra [-> He]].
  cbn [app]. now rewrite He.
Qed.

End Contours.
End ContoursFacts.

(** * [resample_raster] *)
Module ResampleFacts.
Import Resample.

Lemma floordiv_small x s :
  (0 < x)%Z -> (2 <= s)%Z -> floordiv x (x * s) = Some 0%Z.
Proof.
  intros Hx Hs. unfold floordiv.
  destruct (Z.eqb_spec (x * s) 0) as [He|_]; [nia|].
  f_equal. apply Z.div_small. nia.
Qed.

(** X17.  For a raster of positive size and a whole-number scale of 2 or
    more, the call goes through and writes a profile [scale] times as wide
    and as high, but with a transformation that puts every pixel on one
    point, the origin of the input raster: both scale factors of line 57
    are the floor of a quotient below 1. *)
Theorem resample_upscaling_collapses input_raster scale :
  (0 < width input_raster)%Z -> (0 < height input_raster)%Z ->
  (2 <= scale)%Z ->
  exists out,
    resample_raster input_raster scale = Some out /\
    width out = (width input_raster * scale)%Z /\
    height out = (height input_raster * scale)%Z /\
    forall col row,
      (fst (apply (transform out) col row) == c (transform input_raster))%Q /\
      (snd (apply (transform out) col row) == f (transform input_raster))%Q.
Proof.
  intros Hw Hh Hs. unfold resample_raster. cbv zeta. cbn [fst snd].
  destruct (Z.leb_spec scale 0) as [Hle|_]; [lia|].
  rewrite (floordiv_small _ _ Hw Hs), (floordiv_small _ _ Hh Hs).
  eexists. split; [reflexivity|]. cbn [width height transform].
  split; [reflexivity|]. split; [reflexivity|].
  intros col row. unfold apply, compose, scale_of.
  cbn [a b c d e f fst snd]. split; ring.
Qed.

(** X18.  With scale 1 the raster is written as it was read: same size,
    and every pixel where it was. *)
Theorem resample_scale_one input_raster :
  (0 < width input_raster)%Z -> (0 < height input_raster)%Z ->
  exists out,
    resample_raster input_raster 1 = Some out /\
    width out = width input_raster /\
    height out = height input_raster /\
    count out = count input_raster /\
    forall col row,
      (fst (apply (transform out) col row)
       == fst (apply (transform input_raster) col row))%Q /\
      (snd (apply (transform out) col row)
       == snd (apply (transform input_raster) col row))%Q.
Proof.
  intros Hw Hh. unfold resample_raster, floordiv. cbv zeta. cbn [fst snd].
  rewrite !Z.mul_1_r.
  destruct (Z.eqb_spec (width input_raster) 0) as [He|_]; [lia|].
  destruct (Z.eqb_spec (height input_raster) 0) as [He|_]; [lia|].
  cbn [Z.leb Z.compare].
  rewrite !Z.div_same by lia.
  eexists. split; [reflexivity|]. cbn [width height count transform].
  repeat (split; [reflexivity|]).
  intros col row. unfold apply, compose, scale_of.
  cbn [a b c d e f fst snd]. split; ring.
Qed.

End ResampleFacts.

(** * More on [del_shp] *)
Module FilesMore.
Import Files FilesFacts.







Lemma has_double_star_app s t :
  has_double_star s = true -> has_double_star (s ++ t) = true.
Proof.
  induction s as [|x s IH]; [discriminate|].
  destruct s as [|y s'].
  - discriminate.
  - cbn [has_double_star app] in *.
    destruct (Ascii.eqb x "*" && Ascii.eqb y "*"); cbn [orb]; auto.
Qed.

(** X21.  A [.shp] path with two stars in a row in its stem makes
    [del_shp] fail with the [ValueError] of [glob] (pathlib up to Python
    3.12 refuses such a pattern), before any file is removed. *)
Theorem del_shp_double_star fs fp :
  suffix fp = chars ".shp" ->
  has_double_star (stem fp) = true ->
  del_shp fs fp = (fs, Raise ValueError).
Proof.
  intros Hs Hd. unfold del_shp, glob.
  rewrite (proj2 (chars_eqb_eq _ _) Hs).
  now rewrite (has_double_star_app _ (chars ".*") Hd).
Qed.


End FilesMore.

(** * The properties above on the scenes *)
Module MoreRuns.
Import Interval Fixture Scenes.

Lemma simplify_shps_index_reset_witness :
  exists out,
    simplify_shps cfg2 2 two_part_layer = Some (Ok out) /\
    map idx (rows out) = seq 0 (length (rows out)).
Proof.
  destruct (simplify_shps cfg2 2 two_part_layer) as [[out|e]|] eqn:Hr;
    try (vm_compute in Hr; discriminate Hr).
  exists out. split; [reflexivity|].
  exact (simplify_shps_index_reset cfg2 2 two_part_layer out Hr).
Defined.


Lemma simplify_shps_count_witness :
  exists out,
    simplify_shps cfg2 2 two_part_layer = Some (Ok out) /\
    length (rows out)
    <= length (flat_map (fun r => get_parts (geom r))
                        (rows two_part_layer)).
Proof.
  destruct (simplify_shps cfg2 2 two_part_layer) as [[out|e]|] eqn:Hr;
    try (vm_compute in Hr; discriminate Hr).
  exists out. split; [reflexivity|].
  exact (simplify_shps_count cfg2 2 two_part_layer out
           IntervalFacts.interval_union_law Hr).
Defined.



(** The sliver takes the category of its flagged neighbour. *)
Lemma resolve_takes_admissible_category_witness :
  exists g',
    resolve cfg2 tt flagged_frame flagged_sliver = Ok g' /\
    map cat g' = [[VNum 1]; [VNum 1]] /\
    map geom g' = map geom flagged_frame.
Proof.
  destruct (resolve cfg2 tt flagged_frame flagged_sliver) as [g'|e] eqn:Hr;
    [|vm_compute in Hr; discriminate Hr].
  exists g'. split; [reflexivity|]. split.
  - vm_compute in Hr. injection Hr as <-. reflexivity.
  - assert (Hg : Forall filled flagged_frame).
    { repeat constructor; intros [H|[]]; discriminate H. }
    assert (Hs : filled flagged_sliver).
    { intros [H|[]]. discriminate H. }
    exact (proj1 (proj2 (resolve_takes_admissible_category cfg2 tt
                           flagged_frame flagged_sliver g' Hg Hs Hr))).
Defined.

(** A chain of two slivers and a block: three categories, three groups. *)
Lemma dissolve_groups_by_key_witness :
  map geom (dissolve cfg2 (chain 2 9))
  = map (fun g => unary_union (map geom g)) (groups cfg2 (chain 2 9)).
Proof.
  apply (dissolve_groups_by_key cfg2 (chain 2 9)).
  repeat constructor; intros [H|[]]; discriminate H.
Defined.

(** Raster means 11 and 8 beside a sliver of mean 10: the first neighbour
    is taken. *)
Lemma raster_policy_least_difference_witness :
  exists nb,
    In nb (tl (tie_frame 11 8)) /\ idx nb = 1 /\
    forall t, In t (tl (tie_frame 11 8)) ->
      (@raster_diff (engine (tie_tables 11 8)) tt tt (tie_sliver 11 8) nb
       <= @raster_diff (engine (tie_tables 11 8)) tt tt (tie_sliver 11 8)
            t)%Q.
Proof.
  exact (proj2 (@raster_policy_least_difference (engine (tie_tables 11 8))
                  tt tt (tie_sliver 11 8)
                  (tl (tie_frame 11 8)) 1 (tl (tie_frame 11 8)) eq_refl)).
Defined.

(** The square across the midlines, labelled like the first square, is in
    no part and not among the excluded shapes. *)
Lemma shared_label_loses_feature_witness :
  ~ In twin (excluded_shps square_config 1 twin_rows) /\
  (forall q, ~ In twin (part square_config 1 twin_rows q)).
Proof.
  apply (shared_label_loses_feature square_config 1 twin_rows twin
           (square 0) Quarter3).
  - right. right. left. reflexivity.
  - intros q. destruct q; reflexivity.
  - vm_compute. left. reflexivity.
  - reflexivity.
Defined.

Lemma simplify_shps_mp_shape_witness :
  exists out,
    simplify_shps_mp square_config 1 1 square_frame = Some (Ok out) /\
    Forall single_part (rows out) /\
    map idx (rows out) = seq 0 (length (rows out)) /\
    frame_crs out = frame_crs square_frame.
Proof.
  destruct (simplify_shps_mp square_config 1 1 square_frame)
    as [[out|e]|] eqn:Hr; try (vm_compute in Hr; discriminate Hr).
  exists out. split; [reflexivity|].
  exact (simplify_shps_mp_shape square_config 1 1 square_frame out Hr).
Defined.

(** Whole numbers, the five constants in thousandths. *)
Lemma neighboor_xys_sixteen_witness :
  exists l,
    Neighbours.neighboor_xys Z Z.eqb 0%Z Z.opp Z.add Z.mul
      707%Z 924%Z 383%Z 383%Z 924%Z (5, 5)%Z 10%Z = Ok l /\
    length l = 16 /\
    (NoDup [10; 0; Z.opp 10]%Z ->
     firstn 4 l
     = map (fun a => (5 + fst a, 5 + snd a)%Z)
           (Neighbours.axis_steps Z 0%Z Z.opp 10%Z)).
Proof.
  exact (NeighboursFacts.neighboor_xys_sixteen Z Z.eqb 0%Z Z.opp Z.add Z.mul
           707%Z 924%Z 383%Z 383%Z 924%Z (5, 5)%Z 10%Z Z.eqb_eq).
Defined.

Lemma contour_polys_labels_witness :
  exists out,
    Contours.raster_to_contour_polys nat drawn S draw cut_out
      (fun p => p) levels = Contours.Returns out /\
    map fst out = [0; 2] /\
    Sorted.StronglySorted le (map fst out).
Proof.
  destruct (Contours.raster_to_contour_polys nat drawn S draw cut_out
              (fun p => p) levels) as [out|] eqn:Hr;
    [|vm_compute in Hr; discriminate Hr].
  exists out. split; [reflexivity|]. split.
  - vm_compute in Hr. injection Hr as <-. reflexivity.
  - exact (proj1 (ContoursFacts.contour_polys_labels nat drawn S draw cut_out
                    (fun p => p) levels out Hr)).
Defined.

Lemma contour_polys_regular_witness :
  Contours.raster_to_contour_polys nat drawn S draw cut_out
    (fun p => p) levels
  = Contours.Returns [ (0, [[2; 3; 4; 5]; [6; 7; 8]]); (2, [[9; 10; 11]]) ].
Proof.
  apply (ContoursFacts.contour_polys_regular nat drawn S draw cut_out
           (fun p => p) levels).
  intros paths p Hps Hp.
  destruct Hps as [<-|[<-|[<-|[]]]]; try destruct Hp as [<-|[]];
    try destruct Hp;
    (split; [cbn; lia|]);
    intros ring Hr; cbn in Hr;
    repeat (destruct Hr as [<-|Hr]; [cbn; lia|]); destruct Hr.
Defined.

(** Doubling the grid. *)
Lemma resample_upscaling_collapses_witness :
  exists out,
    Resample.resample_raster grid 2 = Some out /\
    Resample.width out = 60%Z /\
    Resample.height out = 40%Z /\
    forall col row,
      (fst (Resample.apply (Resample.transform out) col row) == 500)%Q /\
      (snd (Resample.apply (Resample.transform out) col row) == 900)%Q.
Proof.
  apply (ResampleFacts.resample_upscaling_collapses grid 2);
    reflexivity || (vm_compute; discriminate).
Defined.

Lemma resample_scale_one_witness :
  exists out,
    Resample.resample_raster grid 1 = Some out /\
    Resample.width out = 30%Z /\
    Resample.height out = 20%Z /\
    Resample.count out = 1%Z /\
    forall col row,
      (fst (Resample.apply (Resample.transform out) col row)
       == fst (Resample.apply (Resample.transform grid) col row))%Q /\
      (snd (Resample.apply (Resample.transform out) col row)
       == snd (Resample.apply (Resample.transform grid) col row))%Q.
Proof.
  apply (ResampleFacts.resample_scale_one grid); reflexivity.
Defined.



Lemma del_shp_double_star_witness :
  Files.del_shp Files.shelf (Files.mkPath "d" "ro**ds.shp")
  = (Files.shelf, Raise ValueError).
Proof.
  apply (FilesMore.del_shp_double_star Files.shelf
           (Files.mkPath "d" "ro**ds.shp")); reflexivity.
Defined.

End MoreRuns.
